(** * CTL formula translation of the MCC property files

    A shallow embedding of the two [CTLParser] classes of
    [assets/benchmark/dataset_scripts/extractMCC.py] and
    [assets/benchmark/dataset_scripts/prepare_dataset.py], and the
    properties of the translation and of the extraction drivers. *)

From Stdlib Require Import String Ascii List Bool Arith ZArith Lia.
From stdpp Require Import base option list strings pretty gmap fin_maps.

Local Open Scope string_scope.

(** ** The parsed XML tree ([xml.etree.ElementTree.Element]) *)

#[warnings="-register-all"]
Inductive Element : Type :=
  Elem (tag : string) (attrib : list (string * string))
       (text : option string) (tail : option string)
       (children : list Element).

Definition tag (e : Element) : string :=
  match e with Elem t _ _ _ _ => t end.
Definition attrib (e : Element) : list (string * string) :=
  match e with Elem _ a _ _ _ => a end.
Definition text (e : Element) : option string :=
  match e with Elem _ _ t _ _ => t end.
Definition tail (e : Element) : option string :=
  match e with Elem _ _ _ t _ => t end.
Definition children (e : Element) : list Element :=
  match e with Elem _ _ _ _ cs => cs end.

(** An element with neither attributes nor text, as the structural nodes
    of a formula are. *)
Definition node_of (t : string) (cs : list Element) : Element :=
  Elem t [] None None cs.

(** A terminal element carrying text. *)
Definition leaf_of (t : string) (s : string) : Element :=
  Elem t [] (Some s) None [].

(** ** Python exceptions and the state-and-exception monad *)

Inductive Exn : Type :=
| ValueError (msg : string)
| IndexError
| AttributeError
| TypeError
| KeyError (key : string)
| EOFError.

Inductive Outcome (A : Type) : Type :=
| Returns (a : A)
| Raises (e : Exn).
Arguments Returns {A} a.
Arguments Raises {A} e.

(** A computation over the mutable state [S] of the object: the state
    reached is kept when an exception is raised, as attribute updates of a
    Python object are. *)
Definition M (S A : Type) : Type := S -> Outcome A * S.

Definition ret {S A} (a : A) : M S A := fun s => (Returns a, s).
Definition raise {S A} (e : Exn) : M S A := fun s => (Raises e, s).
Definition bind {S A B} (m : M S A) (k : A -> M S B) : M S B :=
  fun s => match m s with
           | (Returns a, s') => k a s'
           | (Raises e, s') => (Raises e, s')
           end.
Definition get {S} : M S S := fun s => (Returns s, s).
Definition put {S} (s : S) : M S unit := fun _ => (Returns tt, s).

Declare Scope py_scope.
Delimit Scope py_scope with py.
Notation "'do' x <- m ; k" := (bind m (fun x => k))
  (at level 10, x name, m at level 100, k at level 200) : py_scope.
Local Open Scope py_scope.

(** [[f(c) for c in cs]], evaluated left to right. *)
Fixpoint for_each {S A B} (f : A -> M S B) (cs : list A) : M S (list B) :=
  match cs with
  | [] => ret []
  | c :: cs' => do s <- f c ; do ss <- for_each f cs' ; ret (s :: ss)
  end.

(** ** Namespace-qualified tags and [Element.find] *)

Definition MCC_NAMESPACE : string := "http://mcc.lip6.fr/".

Definition _tag (tag_name : string) : string :=
  "{" +:+ MCC_NAMESPACE +:+ "}" +:+ tag_name.

(** The selector of the path [{namespace}*]: any tag of the namespace. *)
Definition in_namespace (t : string) : bool :=
  String.prefix ("{" +:+ MCC_NAMESPACE +:+ "}") t.

(** [elem.find(path)] for a one-step path: the first direct child that the
    selector accepts, [None] when there is none. *)
Fixpoint find_child (sel : string -> bool) (cs : list Element) : option Element :=
  match cs with
  | [] => None
  | c :: cs' => if sel (tag c) then Some c else find_child sel cs'
  end.

Definition find (sel : string -> bool) (e : Element) : option Element :=
  find_child sel (children e).

(** [elem.find(path)] followed by a call [f] on the result, as one
    traversal of the child list: [absent] stands for [f(None)]. *)
Fixpoint find_then {A} (sel : string -> bool) (f : Element -> A) (absent : A)
    (cs : list Element) : A :=
  match cs with
  | [] => absent
  | c :: cs' => if sel (tag c) then f c else find_then sel f absent cs'
  end.

(** [x in [a, b, ...]] on strings. *)
Definition tag_in (t : string) (ts : list string) : bool :=
  existsb (String.eqb t) ts.

(** [elem.iter()]: the element, then its descendants, in document order. *)
Fixpoint iter (e : Element) : list Element :=
  match e with
  | Elem _ _ _ _ cs => e :: flat_map iter cs
  end.

(** [root.findall(".//" + name)]: the proper descendants carrying the tag,
    in document order. *)
Definition findall_descendants (name : string) (root : Element) : list Element :=
  filter (fun e => tag e = name) (flat_map iter (children root)).

(** [root.findall(name)]: the direct children carrying the tag. *)
Definition findall (name : string) (root : Element) : list Element :=
  filter (fun e => tag e = name) (children root).

(** [try: m  except ValueError as e: h]. *)
Definition except_ValueError {S A} (m : M S A) (h : string -> M S A) : M S A :=
  fun s => match m s with
           | (Raises (ValueError msg), s') => h msg s'
           | r => r
           end.

(** A Python [dict], which keeps its keys in insertion order: assigning to
    a key that is present replaces the value where the key stands. *)
Fixpoint dict_set {K V} `{EqDecision K} (d : list (K * V)) (k : K) (v : V)
    : list (K * V) :=
  match d with
  | [] => [(k, v)]
  | (k', v') :: d' =>
      if decide (k' = k) then (k, v) :: d' else (k', v') :: dict_set d' k v
  end.

(** * extractMCC.py *)

Module ExtractMCC.

(** The attributes of a [CTLParser] instance. *)
Record CTLParser : Type := mkParser {
  propositions_map : gmap string string;
  prop_counter : nat
}.

(** [CTLParser.__init__]. *)
Definition init : CTLParser :=
  {| propositions_map := ∅; prop_counter := 0 |}.

Section Serializer.

(** [ET.tostring(node).decode('utf-8')], the canonical key of a subtree. *)
Variable tostring : Element -> string.

Definition _get_prop_id (node : Element) : M CTLParser string :=
  let canonical_key := tostring node in
  do self <- get ;
  do _ <- match propositions_map self !! canonical_key with
          | None =>
              let new_id := "p" +:+ pretty (prop_counter self) in
              put {| propositions_map :=
                       <[canonical_key := new_id]> (propositions_map self);
                     prop_counter := prop_counter self + 1 |}
          | Some _ => ret tt
          end ;
  do self <- get ;
  match propositions_map self !! canonical_key with
  | Some id => ret id
  | None => raise (KeyError canonical_key)
  end.

Definition unknown_tag (t : string) : Exn :=
  ValueError ("Unknown or unhandled XML tag: " +:+ t).

Fixpoint translate_formula_node (node : Element) {struct node} : M CTLParser string :=
  match node with
  | Elem tag _ _ _ children =>
    let base_case : M CTLParser string :=
      if tag_in tag [_tag "integer-le"; _tag "is-fireable"; _tag "tokens-count"] then
        _get_prop_id node
      else
        match children with
        | c :: _ => translate_formula_node c
        | [] => raise (unknown_tag tag)
        end in
    if tag =? _tag "conjunction" then
      do parts <- for_each translate_formula_node children ;
      ret ("(" +:+ String.concat " & " parts +:+ ")")
    else if tag =? _tag "disjunction" then
      do parts <- for_each translate_formula_node children ;
      ret ("(" +:+ String.concat " | " parts +:+ ")")
    else if tag =? _tag "negation" then
      match children with
      | [] => raise IndexError
      | c :: _ => do s <- translate_formula_node c ; ret ("!(" +:+ s +:+ ")")
      end
    else if tag_in tag [_tag "all-paths"; _tag "exists-path"] then
      let quantifier := if tag =? _tag "all-paths" then "A" else "E" in
      match children with
      | [] => raise IndexError
      | Elem op_tag _ _ _ op_children :: _ =>
        if op_tag =? _tag "globally" then
          match op_children with
          | [] => raise IndexError
          | c :: _ =>
              do s <- translate_formula_node c ; ret (quantifier +:+ "G (" +:+ s +:+ ")")
          end
        else if op_tag =? _tag "finally" then
          match op_children with
          | [] => raise IndexError
          | c :: _ =>
              do s <- translate_formula_node c ; ret (quantifier +:+ "F (" +:+ s +:+ ")")
          end
        else if op_tag =? _tag "next" then
          match op_children with
          | [] => raise IndexError
          | c :: _ =>
              do s <- translate_formula_node c ;
              ret (quantifier +:+ "(false W (" +:+ s +:+ "))")
          end
        else if op_tag =? _tag "until" then
          match op_children with
          | [] => raise IndexError
          | Elem _ _ _ _ cs0 :: op_rest =>
              do before_expr <-
                find_then in_namespace translate_formula_node (raise AttributeError) cs0 ;
              match op_rest with
              | [] => raise IndexError
              | Elem _ _ _ _ cs1 :: _ =>
                  do reach_expr <-
                    find_then in_namespace translate_formula_node (raise AttributeError) cs1 ;
                  ret (quantifier +:+ "(" +:+ before_expr +:+ " U " +:+ reach_expr +:+ ")")
              end
          end
        else base_case
      end
    else base_case
  end.

(** The loop body of [extract_properties_from_file], over the property
    elements still to visit.  The warnings printed are not modelled. *)
Fixpoint extract_loop (prop_nodes : list Element)
    (extracted_props : list (option string * string))
    : M CTLParser (list (option string * string)) :=
  match prop_nodes with
  | [] => ret extracted_props
  | prop_node :: rest =>
      match find (String.eqb (_tag "id")) prop_node,
            find (String.eqb (_tag "formula")) prop_node with
      | Some prop_id_node, Some formula_node =>
          let prop_id := text prop_id_node in
          do extracted_props <-
            except_ValueError
              (do ctl_string <- translate_formula_node formula_node ;
               ret (dict_set extracted_props prop_id ctl_string))
              (fun _ => ret extracted_props) ;
          extract_loop rest extracted_props
      | _, _ => extract_loop rest extracted_props
      end
  end.

(** [extract_properties_from_file]: [None] is a file on which [ET.parse]
    raises [ParseError], [Some root] a file parsed to [root]. *)
Definition extract_properties_from_file (parsed : option Element)
    : M CTLParser (list (option string * string)) :=
  match parsed with
  | None => ret []
  | Some root => extract_loop (findall_descendants (_tag "property") root) []
  end.

End Serializer.

End ExtractMCC.

(** * prepare_dataset.py *)

Module PrepareDataset.

(** The token attributes of a [CTLParser] instance; [X] is set only by the
    [lola_compatible] branch of the constructor. *)
Record CTLParser : Type := mkParser {
  lola_compatible : bool;
  AND : string;
  OR : string;
  NOT : string;
  ALLPATH : string;
  EXPATH : string;
  G : string;
  F : string;
  U : string;
  W : string;
  X : option string;
  end_ : string;
  false_ : string;
  true_ : string
}.

(** [CTLParser.__init__]. *)
Definition init (lola : bool) : CTLParser :=
  if lola then
    {| lola_compatible := true;
       AND := "AND"; OR := "OR"; NOT := "NOT";
       ALLPATH := "A"; EXPATH := "E";
       G := "G"; F := "F"; U := "U"; W := "W"; X := Some "X";
       end_ := ":"; false_ := "FALSE"; true_ := "TRUE" |}
  else
    {| lola_compatible := false;
       AND := "&"; OR := "|"; NOT := "!";
       ALLPATH := "A"; EXPATH := "E";
       G := "G"; F := "F"; U := "U"; W := "W"; X := None;
       end_ := ""; false_ := "false"; true_ := "true" |}.

(** The only state the translation reads and changes is the standard
    input, through [input("wait")]: the lines still to be read.  What is
    written to the standard output is not modelled. *)
Definition Stdin : Type := list string.

Definition input : M Stdin string :=
  fun lines => match lines with
               | [] => (Raises EOFError, [])
               | l :: rest => (Returns l, rest)
               end.

(** A value of type [Optional[str]] inside an f-string. *)
Definition fmt (v : option string) : string :=
  match v with
  | Some s => s
  | None => "None"
  end.

(** [sep.join(items)], which accepts strings only. *)
Fixpoint all_str (items : list (option string)) : option (list string) :=
  match items with
  | [] => Some []
  | Some s :: items' => option_map (cons s) (all_str items')
  | None :: _ => None
  end.

Definition join (sep : string) (items : list (option string)) : M Stdin string :=
  match all_str items with
  | Some ss => ret (String.concat sep ss)
  | None => raise TypeError
  end.

Definition unknown_tag (t : string) : Exn :=
  ValueError ("Unknown or unhandled XML tag: " +:+ t).

Section Translator.

Variable self : CTLParser.

Fixpoint translate_formula_node (node : Element) {struct node}
    : M Stdin (option string) :=
  match node with
  | Elem tag _ text _ children =>
    let base_case : M Stdin (option string) :=
      if tag =? _tag "integer-le" then
        match children with
        | [] => raise IndexError
        | c0 :: cs =>
            do before <- translate_formula_node c0 ;
            match cs with
            | [] => raise IndexError
            | c1 :: _ =>
                do after <- translate_formula_node c1 ;
                ret (Some ("(" +:+ fmt before +:+ " <= " +:+ fmt after +:+ ")"))
            end
        end
      else if tag =? _tag "integer-eq" then
        match children with
        | [] => raise IndexError
        | c0 :: cs =>
            do before <- translate_formula_node c0 ;
            match cs with
            | [] => raise IndexError
            | c1 :: _ =>
                do after <- translate_formula_node c1 ;
                ret (Some ("(" +:+ fmt before +:+ " = " +:+ fmt after +:+ ")"))
            end
        end
      else if tag_in tag [_tag "place"; _tag "integer-constant"] then
        ret text
      else if tag =? _tag "tokens-count" then
        match children with
        | [] => raise IndexError
        | c :: _ => do s <- translate_formula_node c ; ret (Some (fmt s))
        end
      else if tag =? _tag "is-fireable" then
        match children with
        | [] => raise IndexError
        | c :: _ =>
            do printed <- translate_formula_node c ;
            do s <- translate_formula_node c ;
            ret (Some (fmt s))
        end
      else
        match children with
        | c :: _ => translate_formula_node c
        | [] => do _ <- input ; raise (unknown_tag tag)
        end in
    if tag =? _tag "conjunction" then
      do parts <- for_each translate_formula_node children ;
      do body <- join (" " +:+ AND self +:+ " ") parts ;
      ret (Some ("(" +:+ body +:+ ")"))
    else if tag =? _tag "disjunction" then
      do parts <- for_each translate_formula_node children ;
      do body <- join (" " +:+ OR self +:+ " ") parts ;
      ret (Some ("(" +:+ body +:+ ")"))
    else if tag =? _tag "negation" then
      match children with
      | [] => raise IndexError
      | c :: _ =>
          do s <- translate_formula_node c ;
          ret (Some (NOT self +:+ "(" +:+ fmt s +:+ ")"))
      end
    else if tag_in tag [_tag "all-paths"; _tag "exists-path"] then
      let quantifier := if tag =? _tag "all-paths" then ALLPATH self else EXPATH self in
      match children with
      | [] => raise IndexError
      | Elem op_tag _ _ _ op_children :: _ =>
        if op_tag =? _tag "globally" then
          match op_children with
          | [] => raise IndexError
          | c :: _ =>
              do s <- translate_formula_node c ;
              ret (Some (quantifier +:+ G self +:+ " (" +:+ fmt s +:+ ")"))
          end
        else if op_tag =? _tag "finally" then
          match op_children with
          | [] => raise IndexError
          | c :: _ =>
              do s <- translate_formula_node c ;
              ret (Some (quantifier +:+ F self +:+ " (" +:+ fmt s +:+ ")"))
          end
        else if op_tag =? _tag "next" then
          if negb (lola_compatible self) then
            match op_children with
            | [] => raise IndexError
            | c :: _ =>
                do s <- translate_formula_node c ;
                ret (Some (quantifier +:+ "(" +:+ false_ self +:+ " " +:+ W self
                             +:+ " (" +:+ fmt s +:+ "))"))
            end
          else
            match X self with
            | None => raise AttributeError
            | Some x =>
                match op_children with
                | [] => raise IndexError
                | c :: _ =>
                    do s <- translate_formula_node c ;
                    ret (Some (quantifier +:+ x +:+ " (" +:+ fmt s +:+ ")"))
                end
            end
        else if op_tag =? _tag "until" then
          match op_children with
          | [] => raise IndexError
          | Elem _ _ _ _ cs0 :: op_rest =>
              do before_expr <-
                find_then in_namespace translate_formula_node (raise AttributeError) cs0 ;
              match op_rest with
              | [] => raise IndexError
              | Elem _ _ _ _ cs1 :: _ =>
                  do reach_expr <-
                    find_then in_namespace translate_formula_node (raise AttributeError) cs1 ;
                  ret (Some (quantifier +:+ "(" +:+ fmt before_expr +:+ " " +:+ U self
                               +:+ " " +:+ fmt reach_expr +:+ ")"))
              end
          end
        else base_case
      end
    else base_case
  end.

(** [ctl_string + self.end]: [+] between [None] and a string is a
    [TypeError]. *)
Definition plus_end (ctl_string : option string) : M Stdin (option string) :=
  match ctl_string with
  | Some s => ret (Some (s +:+ end_ self))
  | None => raise TypeError
  end.

(** The loop body of [extract_properties_from_file]: [i] is the index of
    the head of [prop_nodes] and [n] is [len(prop_nodes)] of the whole
    list. *)
Fixpoint extract_loop (n : nat) (i : nat) (prop_nodes : list Element)
    (extracted_props : list (option string * option string))
    : M Stdin (list (option string * option string)) :=
  match prop_nodes with
  | [] => ret extracted_props
  | prop_node :: rest =>
      match find (String.eqb (_tag "id")) prop_node,
            find (String.eqb (_tag "formula")) prop_node with
      | Some prop_id_node, Some formula_node =>
          let prop_id := text prop_id_node in
          do extracted_props <-
            except_ValueError
              (do ctl_string <- translate_formula_node formula_node ;
               do value <- (if (Z.of_nat i <? Z.of_nat n - 1)%Z
                            then plus_end ctl_string else ret ctl_string) ;
               ret (dict_set extracted_props prop_id value))
              (fun _ => ret extracted_props) ;
          extract_loop n (S i) rest extracted_props
      | _, _ => extract_loop n (S i) rest extracted_props
      end
  end.

Definition extract_properties_from_file (parsed : option Element)
    : M Stdin (list (option string * option string)) :=
  match parsed with
  | None => ret []
  | Some root =>
      let prop_nodes := findall (_tag "property") root in
      extract_loop (length prop_nodes) 0 prop_nodes []
  end.

End Translator.

End PrepareDataset.

(** * A concrete serializer, for running the model on examples

    The theorems below hold for every serializer; [outline] is one that
    writes a subtree out in full. *)

Fixpoint outline (e : Element) : string :=
  match e with
  | Elem t _ tx tl cs =>
      "<" +:+ t +:+ ">" +:+ default "" tx +:+ String.concat "" (map outline cs)
      +:+ "</" +:+ t +:+ ">" +:+ default "" tl
  end.

(** The atoms [is-fireable(t)] and [tokens-count(p)] and the leaf
    [integer-constant(k)] of the property files. *)
Definition is_fireable (t : string) : Element :=
  node_of (_tag "is-fireable") [leaf_of (_tag "transition") t].

Definition tokens_count (p : string) : Element :=
  node_of (_tag "tokens-count") [leaf_of (_tag "place") p].

Definition integer_constant (k : string) : Element :=
  leaf_of (_tag "integer-constant") k.

(** A [property] element with an [id] and a [formula]. *)
Definition property (id : string) (formula : Element) : Element :=
  node_of (_tag "property")
    [leaf_of (_tag "id") id; node_of (_tag "formula") [formula]].

(** * Predicates on computations *)

(** [m] moves the state along the relation [R], whatever its outcome. *)
Definition moves_along {S A} (R : relation S) (m : M S A) : Prop :=
  forall s, R s (snd (m s)).

(** Every exception [m] can raise satisfies [E]. *)
Definition raises_only {S A} (E : Exn -> Prop) (m : M S A) : Prop :=
  forall s e, fst (m s) = Raises e -> E e.

(** * Notions used to state the properties *)

Local Open Scope list_scope.

(** The tags [translate_formula_node] of extractMCC.py tests for on a node
    itself; every other tag is unrecognized there. *)
Definition recognized (t : string) : bool :=
  tag_in t [_tag "conjunction"; _tag "disjunction"; _tag "negation";
            _tag "all-paths"; _tag "exists-path";
            _tag "integer-le"; _tag "is-fireable"; _tag "tokens-count"].

(** The shape invariant, as far as the translation of extractMCC.py relies
    on it: every node the translation visits has the children its tag
    calls for (one under a negation, a quantifier and a unary temporal
    operator; two under an until, each with a sub-element of the
    namespace). *)
Fixpoint has_required_children (node : Element) : bool :=
  match node with
  | Elem tag _ _ _ children =>
    let base_case :=
      if tag_in tag [_tag "integer-le"; _tag "is-fireable"; _tag "tokens-count"] then true
      else
        match children with
        | c :: _ => has_required_children c
        | [] => true
        end in
    if tag =? _tag "conjunction" then forallb has_required_children children
    else if tag =? _tag "disjunction" then forallb has_required_children children
    else if tag =? _tag "negation" then
      match children with
      | [] => false
      | c :: _ => has_required_children c
      end
    else if tag_in tag [_tag "all-paths"; _tag "exists-path"] then
      match children with
      | [] => false
      | Elem op_tag _ _ _ op_children :: _ =>
        if op_tag =? _tag "globally" then
          match op_children with
          | [] => false
          | c :: _ => has_required_children c
          end
        else if op_tag =? _tag "finally" then
          match op_children with
          | [] => false
          | c :: _ => has_required_children c
          end
        else if op_tag =? _tag "next" then
          match op_children with
          | [] => false
          | c :: _ => has_required_children c
          end
        else if op_tag =? _tag "until" then
          match op_children with
          | [] => false
          | Elem _ _ _ _ cs0 :: op_rest =>
              match op_rest with
              | [] => false
              | Elem _ _ _ _ cs1 :: _ =>
                  find_then in_namespace has_required_children false cs0
                  && find_then in_namespace has_required_children false cs1
              end
          end
        else base_case
      end
    else base_case
  end.

(** The interner [st'] extends [st]: every key keeps its symbol and the
    counter has not gone back. *)
Definition extends (st st' : ExtractMCC.CTLParser) : Prop :=
  ExtractMCC.propositions_map st ⊆ ExtractMCC.propositions_map st'
  /\ ExtractMCC.prop_counter st <= ExtractMCC.prop_counter st'.

(** The invariant of an interner that was created empty and changed by
    [_get_prop_id] only: the counter counts the entries, every symbol is
    [p] followed by a number below the counter, and no symbol stands for
    two keys. *)
Record consistent (st : ExtractMCC.CTLParser) : Prop := {
  cons_counter :
    ExtractMCC.prop_counter st = size (ExtractMCC.propositions_map st);
  cons_range : forall k v, ExtractMCC.propositions_map st !! k = Some v ->
    exists j, j < ExtractMCC.prop_counter st /\ v = "p" +:+ pretty j;
  cons_inj : forall k1 k2 v,
    ExtractMCC.propositions_map st !! k1 = Some v ->
    ExtractMCC.propositions_map st !! k2 = Some v -> k1 = k2
}.

(** The canonical keys of a sequence of subtrees. *)
Definition keys (tostring : Element -> string) (nodes : list Element) : list string :=
  tostring <$> nodes.

(** What the specification asks of the driver: the successfully translated
    property entries, each with its id, in the order of the document.  An
    entry without id or formula, and one whose translation raises
    [ValueError], contributes nothing. *)
Fixpoint translated_in_order (tostring : Element -> string) (prop_nodes : list Element)
    : M ExtractMCC.CTLParser (list (option string * string)) :=
  match prop_nodes with
  | [] => ret []
  | prop_node :: rest =>
      match find (String.eqb (_tag "id")) prop_node,
            find (String.eqb (_tag "formula")) prop_node with
      | Some prop_id_node, Some formula_node =>
          do entry <-
            except_ValueError
              (do ctl_string <- ExtractMCC.translate_formula_node tostring formula_node ;
               ret [(text prop_id_node, ctl_string)])
              (fun _ => ret []) ;
          do entries <- translated_in_order tostring rest ;
          ret (entry ++ entries)
      | _, _ => translated_in_order tostring rest
      end
  end.

(** The state [st] and the symbols [syms] reached by interning [nodes],
    one after the other, in an interner that was created empty. *)
Record interned (tostring : Element -> string) (nodes : list Element)
    (syms : list string) (st : ExtractMCC.CTLParser) : Prop := {
  int_length : length syms = length nodes;
  int_dom : dom (ExtractMCC.propositions_map st) = list_to_set (keys tostring nodes);
  int_lookup : forall i a, nodes !! i = Some a ->
    is_Some (syms !! i)
    /\ ExtractMCC.propositions_map st !! tostring a = syms !! i;
  int_first : forall i a, nodes !! i = Some a ->
    tostring a ∉ keys tostring (take i nodes) ->
    syms !! i =
      Some ("p" +:+ pretty (size (list_to_set (keys tostring (take i nodes)) : gset string)));
  int_consistent : consistent st
}.

(** The error of an unknown tag for a node of the tree [root] that has
    no child and no recognized tag. *)
Definition unknown_leaf_error (root : Element) (e : Exn) : Prop :=
  exists leaf,
    leaf ∈ iter root /\ children leaf = [] /\ recognized (tag leaf) = false
    /\ e = ExtractMCC.unknown_tag (tag leaf).

(** The failures of a computation on the tree [root]: the error of an
    unknown leaf of the tree or, only where the shape condition [shape] is
    not met, [IndexError] or [AttributeError]. *)
Definition fails_within {A} (root : Element) (shape : bool)
    (m : M ExtractMCC.CTLParser A) : Prop :=
  raises_only
    (fun e => unknown_leaf_error root e
              \/ (shape = false /\ (e = IndexError \/ e = AttributeError))) m.

(** A property of all the descendants of the elements of a list. *)
Definition deep (P : Element -> Prop) (cs : list Element) : Prop :=
  Forall P (flat_map iter cs).

(** One assignment [d[k] = v], for folding over a list of pairs. *)
Definition dict_update {K V} `{EqDecision K} (d : list (K * V)) (kv : K * V)
    : list (K * V) :=
  dict_set d kv.1 kv.2.

(** * Example documents *)

Definition property_set (props : list Element) : Element :=
  node_of (_tag "property-set") props.

(** The comparison [tokens-count(p) <= k] of the cardinality formulas. *)
Definition at_most (p k : string) : Element :=
  node_of (_tag "integer-le") [tokens_count p; integer_constant k].

(** A conjunction whose second operand is a childless node of a tag the
    translation does not know. *)
Definition failing_formula : Element :=
  node_of (_tag "conjunction") [is_fireable "t1"; node_of (_tag "deadlock") []].

Definition two_properties : Element :=
  property_set [property "a" (is_fireable "t1"); property "b" (is_fireable "t2")].

Definition two_bounds : Element :=
  property_set [property "a" (at_most "P1" "1"); property "b" (at_most "P2" "2")].

Definition repeated_ids : Element :=
  property_set [property "a" (is_fireable "t1");
                property "b" (is_fireable "t2");
                property "a" (is_fireable "t3")].

Definition childless_negation : Element :=
  property_set [property "a" (is_fireable "t1");
                property "b" (node_of (_tag "negation") [])].

(** The atomic subtrees that a translation of extractMCC.py hands to the
    interner, in the order in which it meets them when nothing fails: the
    tree is walked from the root, the children of a connective from left to
    right, and only the children the translation descends into. *)
Fixpoint atoms_in_order (node : Element) : list Element :=
  match node with
  | Elem tag _ _ _ children =>
    let base_case :=
      if tag_in tag [_tag "integer-le"; _tag "is-fireable"; _tag "tokens-count"] then [node]
      else
        match children with
        | c :: _ => atoms_in_order c
        | [] => []
        end in
    if tag =? _tag "conjunction" then flat_map atoms_in_order children
    else if tag =? _tag "disjunction" then flat_map atoms_in_order children
    else if tag =? _tag "negation" then
      match children with
      | [] => []
      | c :: _ => atoms_in_order c
      end
    else if tag_in tag [_tag "all-paths"; _tag "exists-path"] then
      match children with
      | [] => []
      | Elem op_tag _ _ _ op_children :: _ =>
        if op_tag =? _tag "globally" then
          match op_children with
          | [] => []
          | c :: _ => atoms_in_order c
          end
        else if op_tag =? _tag "finally" then
          match op_children with
          | [] => []
          | c :: _ => atoms_in_order c
          end
        else if op_tag =? _tag "next" then
          match op_children with
          | [] => []
          | c :: _ => atoms_in_order c
          end
        else if op_tag =? _tag "until" then
          match op_children with
          | [] => []
          | Elem _ _ _ _ cs0 :: op_rest =>
              find_then in_namespace atoms_in_order [] cs0
              ++ match op_rest with
                 | [] => []
                 | Elem _ _ _ _ cs1 :: _ => find_then in_namespace atoms_in_order [] cs1
                 end
          end
        else base_case
      end
    else base_case
  end.

(** The interner after interning the subtrees of [l] one after the other. *)
Definition intern_all (tostring : Element -> string) (l : list Element)
    (st : ExtractMCC.CTLParser) : ExtractMCC.CTLParser :=
  snd (for_each (ExtractMCC._get_prop_id tostring) l st).

(** The computation [m] changes the interner as interning the subtrees of
    [l] in order does, all of them when it returns and the first ones when
    it raises. *)
Definition interns {A} (tostring : Element -> string) (l : list Element)
    (m : M ExtractMCC.CTLParser A) : Prop :=
  forall st,
    match m st with
    | (Returns _, st') => st' = intern_all tostring l st
    | (Raises _, st') => exists n, st' = intern_all tostring (take n l) st
    end.

(** * extractMCC.py: the loop of [main] over the input files *)

Module ExtractMCCMain.

(** What the loop of [main] changes: the dict [all_properties], and the
    files it writes, each path with the text last written to it. *)
Record Run : Type := mkRun {
  all_properties : list (string * string);
  written : gmap string string
}.

Definition newline : string := String "010"%char "".

(** A property id inside an f-string. *)
Definition fmt (v : option string) : string :=
  match v with
  | Some s => s
  | None => "None"
  end.

(** [file[:-4]]. *)
Definition drop_last_4 (s : string) : string :=
  substring 0 (String.length s - 4) s.

(** The lines [f.write(f"{ctl_str}\n")] for the items of a dict. *)
Definition lines (d : list (string * string)) : string :=
  String.concat "" (map (fun item => snd item +:+ newline) d).

Section Main.

Variable tostring : Element -> string.

(** [os.path.join]. *)
Variable path_join : string -> string -> string.

(** [os.path.basename(os.path.dirname(file_path))]. *)
Variable parent_name : string -> string.

(** [ET.parse] of the file at a path, [None] when it raises [ParseError]. *)
Variable parse : string -> option Element.

Variable output_folder : string.

Definition unique_id (file_path : string) (prop_id : option string) : string :=
  parent_name file_path +:+ "_" +:+ fmt prop_id.

(** [for prop_id, ctl_str in properties.items():
       all_properties[unique_id] = ctl_str]. *)
Definition collect (file_path : string) (properties : list (option string * string))
    (all : list (string * string)) : list (string * string) :=
  foldl (fun d item => dict_set d (unique_id file_path (fst item)) (snd item))
        all properties.

Definition output_path (file : string) : string :=
  output_folder +:+ "/" +:+ drop_last_4 file +:+ ".txt".

(** The body of the loop for one file of one directory: a new parser for
    the file, its properties added to [all_properties], and all of
    [all_properties] written to the output file of this file.  An exception
    that leaves the extraction leaves [main]. *)
Definition process_file (root file : string) : M Run unit :=
  if file =? ".DS_Store" then ret tt
  else
    let file_path := path_join root file in
    fun run =>
      match ExtractMCC.extract_properties_from_file tostring (parse file_path)
              ExtractMCC.init with
      | (Raises e, _) => (Raises e, run)
      | (Returns properties, _) =>
          let all :=
            match properties with
            | [] => all_properties run
            | _ :: _ => collect file_path properties (all_properties run)
            end in
          (Returns tt,
           {| all_properties := all;
              written := <[output_path file := lines all]> (written run) |})
      end.

Fixpoint process_files (root : string) (files : list string) : M Run unit :=
  match files with
  | [] => ret tt
  | file :: files' => do _ <- process_file root file ; process_files root files'
  end.

(** [for root, _, files in os.walk(args.input_folder)]. *)
Fixpoint main_loop (walk : list (string * list string)) : M Run unit :=
  match walk with
  | [] => ret tt
  | (root, files) :: walk' => do _ <- process_files root files ; main_loop walk'
  end.

End Main.

End ExtractMCCMain.

(** * Further notions *)

(** A computation that, once it has returned, returns the same value from
    every later interner and leaves that interner as it is. *)
Definition replays {A} (m : M ExtractMCC.CTLParser A) : Prop :=
  moves_along extends m
  /\ forall st a st', m st = (Returns a, st') ->
       forall st2, extends st' st2 -> m st2 = (Returns a, st2).

(** The number of parentheses left open after [s], read from a point where
    [d] were open; [None] when a closing parenthesis has no opening one. *)
Fixpoint paren_depth (s : string) (d : nat) : option nat :=
  match s with
  | EmptyString => Some d
  | String c s' =>
      if Ascii.eqb c "(" then paren_depth s' (S d)
      else if Ascii.eqb c ")" then
        match d with
        | 0 => None
        | S d' => paren_depth s' d'
        end
      else paren_depth s' d
  end.

(** Every parenthesis of [s] has its partner. *)
Definition balanced (s : string) : Prop := paren_depth s 0 = Some 0.

(** A computation whose results, from a consistent interner, satisfy [Q],
    and which keeps the interner consistent. *)
Definition yields {A} (Q : A -> Prop) (m : M ExtractMCC.CTLParser A) : Prop :=
  forall st, consistent st ->
    consistent (snd (m st))
    /\ forall a st', m st = (Returns a, st') -> Q a.

(** The tags of the temporal operators that a quantifier node is
    translated with. *)
Definition temporal_operator (t : string) : bool :=
  tag_in t [_tag "globally"; _tag "finally"; _tag "next"; _tag "until"].

(** A property element that carries both an id and a formula. *)
Definition has_id_and_formula (p : Element) : bool :=
  match find (String.eqb (_tag "id")) p, find (String.eqb (_tag "formula")) p with
  | Some _, Some _ => true
  | _, _ => false
  end.

(** The shape condition on the formula of a property element, if it has
    one. *)
Definition formula_has_required_children (p : Element) : bool :=
  match find (String.eqb (_tag "formula")) p with
  | Some f => has_required_children f
  | None => true
  end.

(** The id of a property element is [k]. *)
Definition has_id (k : option string) (p : Element) : Prop :=
  exists id_node, find (String.eqb (_tag "id")) p = Some id_node /\ text id_node = k.

(** A computation on the standard input that reads nothing when it
    returns. *)
Definition reads_nothing {A} (m : M PrepareDataset.Stdin A) : Prop :=
  forall st a st', m st = (Returns a, st') -> st' = st.

(** A computation that, when no input is left, leaves it so and does not
    raise [ValueError]. *)
Definition eof_safe {A} (m : M PrepareDataset.Stdin A) : Prop :=
  snd (m []) = [] /\ forall msg, fst (m []) <> Raises (ValueError msg).

(** Two computations on the standard input with the same outcome: from
    every input both return, values related by [R], or both raise the same
    exception, and both leave the same input. *)
Definition same_outcome {A B} (R : A -> B -> Prop)
    (m1 : M PrepareDataset.Stdin A) (m2 : M PrepareDataset.Stdin B) : Prop :=
  forall st,
    match m1 st, m2 st with
    | (Returns a, s1), (Returns b, s2) => R a b /\ s1 = s2
    | (Raises e1, s1), (Raises e2, s2) => e1 = e2 /\ s1 = s2
    | _, _ => False
    end.

(** Two values of type [Optional[str]] that are both strings or both
    [None]. *)
Definition both_str (v1 v2 : option string) : Prop := is_Some v1 <-> is_Some v2.

(** Two dicts with the same keys in the same order. *)
Definition same_keys {K V W} (d1 : list (K * V)) (d2 : list (K * W)) : Prop :=
  d1.*1 = d2.*1.

(** A property element without id. *)
Definition property_without_id (formula : Element) : Element :=
  node_of (_tag "property") [node_of (_tag "formula") [formula]].

Definition one_without_id : Element :=
  property_set [property_without_id (is_fireable "t1");
                property "b" (is_fireable "t2")].

Definition two_fireable : Element :=
  node_of (_tag "conjunction") [is_fireable "t1"; is_fireable "t2"].

(** * Reasoning about computations *)

Section Computations.

Context {S : Type}.

Lemma bind_returns {A B} (m : M S A) (k : A -> M S B) s a s' :
  m s = (Returns a, s') -> bind m k s = k a s'.
Proof. intros H. unfold bind. now rewrite H. Qed.

Lemma bind_raises {A B} (m : M S A) (k : A -> M S B) s e s' :
  m s = (Raises e, s') -> bind m k s = (Raises e, s').
Proof. intros H. unfold bind. now rewrite H. Qed.

Section MovesAlong.

Context (R : relation S) `{!PreOrder R}.

Lemma moves_ret {A} (a : A) : moves_along (S:=S) R (ret a).
Proof. intros s. reflexivity. Qed.

Lemma moves_raise {A} e : moves_along R (@raise S A e).
Proof. intros s. reflexivity. Qed.

Lemma moves_bind {A B} (m : M S A) (k : A -> M S B) :
  moves_along R m -> (forall a, moves_along R (k a)) -> moves_along R (bind m k).
Proof.
  intros Hm Hk s. unfold bind. specialize (Hm s).
  destruct (m s) as [[a|e] s1]; simpl in *; [|assumption].
  etransitivity; [eassumption|apply Hk].
Qed.

Lemma moves_for_each {A B} (f : A -> M S B) cs :
  Forall (fun c => moves_along R (f c)) cs -> moves_along R (for_each f cs).
Proof.
  induction 1 as [|c cs Hc _ IH]; simpl.
  - apply moves_ret.
  - apply moves_bind; [assumption|]. intros s1.
    apply moves_bind; [assumption|]. intros ss. apply moves_ret.
Qed.

Lemma moves_find_then {A} sel (f : Element -> M S A) absent cs :
  Forall (fun c => moves_along R (f c)) cs -> moves_along R absent ->
  moves_along R (find_then sel f absent cs).
Proof.
  intros Hcs Habs. induction Hcs as [|c cs Hc _ IH]; simpl; [assumption|].
  destruct (sel (tag c)); assumption.
Qed.

Lemma moves_except_ValueError {A} (m : M S A) h :
  moves_along R m -> (forall msg, moves_along R (h msg)) ->
  moves_along R (except_ValueError m h).
Proof.
  intros Hm Hh s. unfold except_ValueError. specialize (Hm s).
  destruct (m s) as [[a|[]] s1]; simpl in *; try assumption.
  etransitivity; [eassumption|apply Hh].
Qed.

End MovesAlong.

Lemma raises_only_ret {A} E (a : A) : raises_only (S:=S) E (ret a).
Proof. intros s e. discriminate. Qed.

Lemma raises_only_raise {A} (E : Exn -> Prop) e : E e -> raises_only E (@raise S A e).
Proof. intros He s e' [= <-]. assumption. Qed.

Lemma raises_only_bind {A B} E (m : M S A) (k : A -> M S B) :
  raises_only E m -> (forall a, raises_only E (k a)) -> raises_only E (bind m k).
Proof.
  intros Hm Hk s e. unfold bind. specialize (Hm s).
  destruct (m s) as [[a|e1] s1]; simpl in *.
  - apply Hk.
  - intros [= <-]. now apply Hm.
Qed.

Lemma raises_only_weaken {A} (E E' : Exn -> Prop) (m : M S A) :
  (forall e, E e -> E' e) -> raises_only E m -> raises_only E' m.
Proof. intros HE Hm s e He. apply HE. eapply Hm. eassumption. Qed.

Lemma raises_only_for_each {A B} E (f : A -> M S B) cs :
  Forall (fun c => raises_only E (f c)) cs -> raises_only E (for_each f cs).
Proof.
  induction 1 as [|c cs Hc _ IH]; simpl.
  - apply raises_only_ret.
  - apply raises_only_bind; [assumption|]. intros s1.
    apply raises_only_bind; [assumption|]. intros ss. apply raises_only_ret.
Qed.

End Computations.

(** Induction on an element with the hypothesis on all its children. *)
Lemma Element_children_ind (P : Element -> Prop) :
  (forall t a tx tl cs, Forall P cs -> P (Elem t a tx tl cs)) ->
  forall e, P e.
Proof.
  intros step. fix IH 1. intros [t a tx tl cs]. apply step.
  induction cs as [|c cs IHcs]; constructor; [apply IH|apply IHcs].
Qed.

Lemma for_each_app {S A B} (f : A -> M S B) l1 l2 s :
  for_each f (l1 ++ l2) s =
    (do r1 <- for_each f l1 ; do r2 <- for_each f l2 ; ret (r1 ++ r2)) s.
Proof.
  revert s. induction l1 as [|c l1 IH]; intros s; simpl.
  - unfold bind, ret. simpl. destruct (for_each f l2 s) as [[r|e] s']; reflexivity.
  - unfold bind, ret in *. destruct (f c s) as [[b|e] s1]; [|reflexivity].
    rewrite IH.
    destruct (for_each f l1 s1) as [[r1|e] s2]; [|reflexivity].
    destruct (for_each f l2 s2) as [[r2|e] s3]; reflexivity.
Qed.

Lemma symbol_inj (i j : nat) : "p" +:+ pretty i = "p" +:+ pretty j -> i = j.
Proof.
  intros H. apply (inj (String.append "p")) in H. by apply (inj pretty) in H.
Qed.

(** * The proposition interner of extractMCC.py *)

Section Interner.

Import ExtractMCC.

Variable tostring : Element -> string.

Abbreviation intern := (_get_prop_id tostring).

(** [_get_prop_id] in closed form: a known key gives its symbol back and
    changes nothing, a new key takes the symbol of the counter. *)
Lemma intern_eq node self :
  intern node self =
    match propositions_map self !! tostring node with
    | Some id => (Returns id, self)
    | None =>
        (Returns ("p" +:+ pretty (prop_counter self)),
         {| propositions_map :=
              <[tostring node := "p" +:+ pretty (prop_counter self)]>
                (propositions_map self);
            prop_counter := prop_counter self + 1 |})
    end.
Proof.
  unfold _get_prop_id, bind, get, put, ret, raise.
  destruct (propositions_map self !! tostring node) as [id|] eqn:Hk; simpl.
  - now rewrite Hk.
  - now rewrite lookup_insert_eq.
Qed.

Lemma intern_returns node self : exists id, fst (intern node self) = Returns id.
Proof.
  rewrite intern_eq. destruct (propositions_map self !! tostring node); eauto.
Qed.

Global Instance extends_preorder : PreOrder extends.
Proof.
  split.
  - intros st. split; reflexivity.
  - intros st1 st2 st3 [H1 H2] [H3 H4]. split; [etransitivity; eassumption|lia].
Qed.

Lemma intern_extends node : moves_along extends (intern node).
Proof.
  intros st. rewrite intern_eq.
  destruct (propositions_map st !! tostring node) eqn:Hk; simpl.
  - reflexivity.
  - split; simpl; [now apply insert_subseteq|lia].
Qed.

Lemma consistent_init : consistent init.
Proof. split; simpl; done. Qed.

Lemma intern_consistent node st :
  consistent st -> consistent (snd (intern node st)).
Proof.
  intros [Hcnt Hrange Hinj]. rewrite intern_eq.
  destruct (propositions_map st !! tostring node) as [v|] eqn:Hk; simpl.
  - by split.
  - split; simpl.
    + rewrite map_size_insert_None by assumption. lia.
    + intros k v Hv. apply lookup_insert_Some in Hv as [[<- <-]|[Hne Hv]].
      * exists (prop_counter st). split; [lia|reflexivity].
      * destruct (Hrange k v Hv) as (j & Hj & ->). exists j. split; [lia|reflexivity].
    + intros k1 k2 v H1 H2.
      apply lookup_insert_Some in H1 as [[E1 V1]|[Hne1 H1]];
        apply lookup_insert_Some in H2 as [[E2 V2]|[Hne2 H2]].
      * congruence.
      * destruct (Hrange _ _ H2) as (j & Hj & E). rewrite E in V1.
        apply symbol_inj in V1. lia.
      * destruct (Hrange _ _ H1) as (j & Hj & E). rewrite E in V2.
        apply symbol_inj in V2. lia.
      * eauto.
Qed.

Lemma interned_nil : interned tostring [] [] init.
Proof. split; simpl; try done; apply consistent_init. Qed.

Lemma keys_snoc nodes a :
  (list_to_set (keys tostring (nodes ++ [a])) : gset string)
  = list_to_set (keys tostring nodes) ∪ {[tostring a]}.
Proof.
  unfold keys. rewrite fmap_app, list_to_set_app_L. simpl.
  now rewrite (right_id_L ∅ (∪)).
Qed.

Lemma interned_snoc nodes syms st a :
  interned tostring nodes syms st ->
  exists x st',
    intern a st = (Returns x, st') /\ interned tostring (nodes ++ [a]) (syms ++ [x]) st'.
Proof.
  intros Hint. pose proof (intern_consistent a st (int_consistent _ _ _ _ Hint)) as Hcons.
  destruct Hint as [Hlen Hdom Hlook Hfirst [Hcnt _ _]].
  rewrite intern_eq in Hcons |- *.
  destruct (propositions_map st !! tostring a) as [v|] eqn:Hk.
  - exists v, st. split; [reflexivity|].
    assert (Hin : tostring a ∈ dom (propositions_map st)) by (apply elem_of_dom; eauto).
    split; try assumption.
    + rewrite !length_app. simpl. lia.
    + rewrite keys_snoc, <- Hdom. apply set_eq. intros k.
      rewrite elem_of_union, elem_of_singleton. split; [tauto|].
      intros [?| ->]; assumption.
    + intros i b Hi. apply lookup_app_Some in Hi as [Hi|[Hge Hi]].
      * destruct (Hlook i b Hi) as [[y Hy] Heq].
        rewrite (lookup_app_l_Some _ _ _ _ Hy). rewrite Heq, Hy. eauto.
      * apply list_lookup_singleton_Some in Hi as [Hi <-].
        assert (i = length syms) as -> by lia.
        rewrite list_lookup_middle by reflexivity. eauto.
    + intros i b Hi Hfresh. apply lookup_app_Some in Hi as [Hi|[Hge Hi]].
      * pose proof (lookup_lt_Some _ _ _ Hi) as Hlt.
        rewrite take_app_le in Hfresh |- * by lia.
        rewrite lookup_app_l by lia. eauto.
      * apply list_lookup_singleton_Some in Hi as [Hi <-].
        assert (i = length nodes) as -> by lia.
        rewrite take_app_length in Hfresh.
        exfalso. apply Hfresh. apply (elem_of_list_to_set (C:=gset string)).
        now rewrite <- Hdom.
  - eexists _, _. split; [reflexivity|].
    split; simpl; try assumption.
    + rewrite !length_app. simpl. lia.
    + rewrite dom_insert_L, keys_snoc, Hdom. apply set_eq. intros k.
      rewrite !elem_of_union. tauto.
    + intros i b Hi. apply lookup_app_Some in Hi as [Hi|[Hge Hi]].
      * destruct (Hlook i b Hi) as [[y Hy] Heq].
        rewrite (lookup_app_l_Some _ _ _ _ Hy). split; [eauto|].
        rewrite lookup_insert_ne; [now rewrite Heq, Hy|].
        intros E. rewrite <- E in Heq. rewrite Hk in Heq. congruence.
      * apply list_lookup_singleton_Some in Hi as [Hi <-].
        assert (i = length syms) as -> by lia.
        rewrite list_lookup_middle by reflexivity.
        rewrite lookup_insert_eq. eauto.
    + intros i b Hi Hfresh. apply lookup_app_Some in Hi as [Hi|[Hge Hi]].
      * pose proof (lookup_lt_Some _ _ _ Hi) as Hlt.
        rewrite take_app_le in Hfresh |- * by lia.
        rewrite lookup_app_l by lia. eauto.
      * apply list_lookup_singleton_Some in Hi as [Hi <-].
        assert (i = length nodes) as -> by lia.
        rewrite take_app_length.
        rewrite <- Hlen, list_lookup_middle by reflexivity.
        rewrite <- Hdom, size_dom, <- Hcnt. reflexivity.
Qed.

(** Interning a sequence of subtrees in a new interner never fails, and
    reaches a state and symbols that satisfy [interned]. *)
Lemma intern_sequence nodes :
  exists syms st,
    for_each intern nodes init = (Returns syms, st) /\ interned tostring nodes syms st.
Proof.
  induction nodes as [|a nodes IH] using rev_ind.
  - exists [], init. split; [reflexivity|apply interned_nil].
  - destruct IH as (syms & st & Hrun & Hint).
    destruct (interned_snoc _ _ _ a Hint) as (x & st' & Hx & Hint').
    exists (syms ++ [x]), st'. split; [|assumption].
    rewrite for_each_app. rewrite (bind_returns _ _ _ _ _ Hrun).
    simpl. unfold bind at 1. unfold bind at 1. rewrite Hx. reflexivity.
Qed.

End Interner.

(** * Descendants *)

Lemma deep_nil P : deep P [].
Proof. constructor. Qed.

Lemma deep_cons P c cs :
  deep P (c :: cs) <-> P c /\ deep P (children c) /\ deep P cs.
Proof.
  unfold deep. destruct c as [t a tx tl gcs]. cbn [flat_map iter children].
  rewrite <- app_comm_cons, Forall_cons, Forall_app. tauto.
Qed.

Lemma deep_Forall P cs : deep P cs -> Forall P cs.
Proof.
  induction cs as [|c cs IH]; [constructor|].
  rewrite deep_cons. intros (Hc & _ & Hcs). constructor; auto.
Qed.

(** Induction on an element with the hypothesis on all its descendants:
    the translation calls itself on children of children. *)
Lemma Element_descendants_ind (P : Element -> Prop) :
  (forall e, deep P (children e) -> P e) -> forall e, P e.
Proof.
  intros step.
  assert (H : forall e, P e /\ deep P (children e)).
  { induction e as [t a tx tl cs IH] using Element_children_ind.
    assert (Hd : deep P cs).
    { induction IH as [|c cs [Hc Hdc] _ IHcs]; [apply deep_nil|].
      apply deep_cons. auto. }
    split; [apply step|]; exact Hd. }
  intros e. apply H.
Qed.

Lemma iter_self e : e ∈ iter e.
Proof. destruct e. cbn [iter]. apply elem_of_cons. now left. Qed.

(** The descendants of a member of [iter root] are members of it. *)
Lemma iter_descendants root e d :
  e ∈ iter root -> d ∈ flat_map iter (children e) -> d ∈ iter root.
Proof.
  revert e d. induction root as [t a tx tl cs IH] using Element_children_ind.
  intros e d He Hd. cbn [iter] in He. apply elem_of_cons in He as [->|He].
  - cbn [children] in Hd. cbn [iter]. apply elem_of_cons. now right.
  - cbn [iter]. apply elem_of_cons. right.
    apply list_elem_of_In, in_flat_map in He as (c & Hc & He).
    apply list_elem_of_In, in_flat_map. exists c. split; [assumption|].
    apply list_elem_of_In. rewrite Forall_forall in IH.
    apply (IH c (proj2 (list_elem_of_In _ _) Hc) e d);
      [now apply list_elem_of_In|assumption].
Qed.

Ltac split_children :=
  repeat match goal with
  | H : deep _ (_ :: _) |- _ => apply deep_cons in H; destruct H as (? & ? & ?)
  | H : deep _ (children (Elem _ _ _ _ _)) |- _ => cbn [children] in H
  end.

(** Case analysis along the body of a translation: the tests on tags and
    the inspections of child lists are split, and [rule] treats the
    computation that is left. *)
Ltac walk rule :=
  repeat first
    [ assumption
    | match goal with
      | |- _ _ (if ?b then _ else _) => destruct b eqn:?; cbv beta iota
      | |- _ _ (match ?l with [] => _ | _ :: _ => _ end) =>
          is_var l; destruct l; cbv beta iota; split_children
      | |- _ _ (match ?e with Elem _ _ _ _ _ => _ end) =>
          is_var e; destruct e; cbv beta iota; split_children
      | |- _ (match ?l with [] => _ | _ :: _ => _ end) _ =>
          is_var l; destruct l; cbv beta iota; split_children
      | |- _ (match ?e with Elem _ _ _ _ _ => _ end) _ =>
          is_var e; destruct e; cbv beta iota; split_children
      end
    | rule tt ].

Ltac moves_rule _ :=
  match goal with
  | |- moves_along _ (ret _) => apply moves_ret; exact _
  | |- moves_along _ (raise _) => apply moves_raise; exact _
  | |- moves_along _ (bind _ _) => apply moves_bind; [exact _| |intros ?]
  | |- moves_along _ (for_each _ _) =>
      apply moves_for_each; [exact _|apply deep_Forall; assumption]
  | |- moves_along _ (find_then _ _ _ _) =>
      apply moves_find_then; [apply deep_Forall; assumption|]
  end.

(** * The translator *)

Section Translation.

Variable tostring : Element -> string.

Abbreviation translate := (ExtractMCC.translate_formula_node tostring).
Abbreviation intern := (ExtractMCC._get_prop_id tostring).

(** C1. A quantifier node over a next node over [phi] is rendered, by the
    symbolic grammar (extractMCC.py, and prepare_dataset.py without
    [lola_compatible]), as the quantifier letter, [(false W (], the
    translation of [phi] and [))], and by the keyword grammar of
    prepare_dataset.py as the quantifier letter, [X (], the translation of
    [phi] and [)]; a failure of the translation of [phi] is passed on. *)
Theorem next_is_weak_until_or_native
    (all_paths : bool) a tx tl a' tx' tl' (phi : Element) rest rest' :
  let quantified :=
    Elem (if all_paths then _tag "all-paths" else _tag "exists-path") a tx tl
         (Elem (_tag "next") a' tx' tl' (phi :: rest') :: rest) in
  let quantifier := if all_paths then "A" else "E" in
  translate quantified
    = (do s <- translate phi ; ret (quantifier +:+ "(false W (" +:+ s +:+ "))"))
  /\ PrepareDataset.translate_formula_node (PrepareDataset.init false) quantified
    = (do s <- PrepareDataset.translate_formula_node (PrepareDataset.init false) phi ;
       ret (Some (quantifier +:+ "(false W (" +:+ PrepareDataset.fmt s +:+ "))")))
  /\ PrepareDataset.translate_formula_node (PrepareDataset.init true) quantified
    = (do s <- PrepareDataset.translate_formula_node (PrepareDataset.init true) phi ;
       ret (Some (quantifier +:+ "X (" +:+ PrepareDataset.fmt s +:+ ")"))).
Proof. destruct all_paths; repeat split; reflexivity. Qed.

(** A node with one of the three atomic tags of extractMCC.py is handed to
    the interner. *)
Lemma atomic_tag_is_interned (node : Element) :
  tag_in (tag node) [_tag "integer-le"; _tag "is-fireable"; _tag "tokens-count"] = true ->
  translate node = intern node.
Proof.
  destruct node as [t a tx tl cs]. unfold tag_in. cbn [tag existsb].
  rewrite !orb_true_iff, !String.eqb_eq.
  intros [->|[->|[->|?]]]; try discriminate; reflexivity.
Qed.

(** C5, as the code has it. A node tagged [integer-le], [is-fireable] or
    [tokens-count] is handed to the interner whole, and the symbol of the
    interner is the translation: nothing below the node is visited.  The
    tags [integer-eq], [place] and [integer-constant] are not among the
    atomic classes of extractMCC.py: such a node is translated as its first
    child, and raises the error of an unknown tag when it has none. *)
Theorem opaque_atoms_are_interned_whole (node : Element) :
  (tag_in (tag node) [_tag "integer-le"; _tag "is-fireable"; _tag "tokens-count"] = true ->
   translate node = intern node)
  /\ (tag_in (tag node) [_tag "integer-eq"; _tag "place"; _tag "integer-constant"] = true ->
      translate node =
        match children node with
        | c :: _ => translate c
        | [] => raise (ExtractMCC.unknown_tag (tag node))
        end).
Proof.
  split; [apply atomic_tag_is_interned|].
  destruct node as [t a tx tl cs]. unfold tag_in. cbn [tag children existsb].
  rewrite !orb_true_iff, !String.eqb_eq.
  intros [->|[->|[->|?]]]; try discriminate; reflexivity.
Qed.

(** C3. From a new interner, the conjunction of two [is-fireable] atoms of
    different serializations translates to [(p0 & p1)], and the interner
    then holds two entries: the first atom under [p0], the second under
    [p1]. *)
Theorem conjunction_of_two_fireable_atoms a tx tl (t1 t2 : Element) :
  tag t1 = _tag "is-fireable" ->
  tag t2 = _tag "is-fireable" ->
  tostring t1 <> tostring t2 ->
  exists st,
    translate (Elem (_tag "conjunction") a tx tl [t1; t2]) ExtractMCC.init
      = (Returns "(p0 & p1)", st)
    /\ size (ExtractMCC.propositions_map st) = 2
    /\ ExtractMCC.propositions_map st !! tostring t1 = Some "p0"
    /\ ExtractMCC.propositions_map st !! tostring t2 = Some "p1"
    /\ ExtractMCC.prop_counter st = 2.
Proof.
  intros H1 H2 Hne.
  assert (E1 : translate t1 = intern t1)
    by (apply atomic_tag_is_interned; rewrite H1; reflexivity).
  assert (E2 : translate t2 = intern t2)
    by (apply atomic_tag_is_interned; rewrite H2; reflexivity).
  change (translate (Elem (_tag "conjunction") a tx tl [t1; t2]))
    with (do parts <- for_each translate [t1; t2] ;
          ret ("(" +:+ String.concat " & " parts +:+ ")")).
  cbn [for_each]. rewrite E1, E2. unfold bind, ret.
  rewrite !intern_eq. simpl ExtractMCC.propositions_map. rewrite lookup_empty.
  rewrite intern_eq. simpl ExtractMCC.propositions_map. simpl ExtractMCC.prop_counter.
  rewrite lookup_insert_ne, lookup_empty by assumption.
  eexists. split; [reflexivity|]. simpl.
  repeat split.
  - rewrite map_size_insert_None, map_size_insert_None, map_size_empty; try done.
    now rewrite lookup_insert_ne, lookup_empty.
  - rewrite lookup_insert_ne by congruence. now rewrite lookup_insert_eq.
  - now rewrite lookup_insert_eq.
Qed.

(** C6. Under a quantifier, an until node with two children, each of which
    wraps one sub-formula with a tag of the namespace, is translated from
    the two wrapped sub-formulas, the first before the second, and never
    from the wrappers: the result is the quantifier letter, [(], the
    translation of the first, [ U ], the translation of the second and
    [)], in both files. *)
Theorem until_translates_the_wrapped_operands
    (all_paths : bool) a tx tl a' tx' tl' (w0 w1 before reach : Element) rest :
  children w0 = [before] ->
  children w1 = [reach] ->
  in_namespace (tag before) = true ->
  in_namespace (tag reach) = true ->
  let quantified :=
    Elem (if all_paths then _tag "all-paths" else _tag "exists-path") a tx tl
         (Elem (_tag "until") a' tx' tl' [w0; w1] :: rest) in
  let quantifier := if all_paths then "A" else "E" in
  translate quantified
    = (do before_expr <- translate before ;
       do reach_expr <- translate reach ;
       ret (quantifier +:+ "(" +:+ before_expr +:+ " U " +:+ reach_expr +:+ ")"))
  /\ forall lola,
      PrepareDataset.translate_formula_node (PrepareDataset.init lola) quantified
      = (do before_expr <-
           PrepareDataset.translate_formula_node (PrepareDataset.init lola) before ;
         do reach_expr <-
           PrepareDataset.translate_formula_node (PrepareDataset.init lola) reach ;
         ret (Some (quantifier +:+ "(" +:+ PrepareDataset.fmt before_expr +:+ " U "
                      +:+ PrepareDataset.fmt reach_expr +:+ ")"))).
Proof.
  destruct w0 as [t0 a0 x0 l0 c0], w1 as [t1 a1 x1 l1 c1]. simpl.
  intros -> -> Hb Hr.
  split; [|intros lola]; destruct all_paths; try destruct lola;
    cbn [ExtractMCC.translate_formula_node PrepareDataset.translate_formula_node
         find_then];
    rewrite Hb, Hr; reflexivity.
Qed.

(** A node with an unrecognized tag and at least one child is translated
    as its first child. *)
Lemma unrecognized_wrapper t a tx tl c cs :
  recognized t = false ->
  translate (Elem t a tx tl (c :: cs)) = translate c.
Proof.
  unfold recognized, tag_in. simpl existsb. rewrite !orb_false_iff.
  intros (H1 & H2 & H3 & H4 & H5 & H6 & H7 & H8 & _).
  cbn [ExtractMCC.translate_formula_node].
  unfold tag_in. cbn [existsb].
  rewrite H1, H2, H3, H4, H5, H6, H7, H8. reflexivity.
Qed.

(** A node with an unrecognized tag and no child raises the error of an
    unknown tag, which carries the tag, and leaves the interner as it
    was. *)
Lemma unrecognized_leaf t a tx tl :
  recognized t = false ->
  translate (Elem t a tx tl []) = raise (ExtractMCC.unknown_tag t).
Proof.
  unfold recognized, tag_in. simpl existsb. rewrite !orb_false_iff.
  intros (H1 & H2 & H3 & H4 & H5 & H6 & H7 & H8 & _).
  cbn [ExtractMCC.translate_formula_node].
  unfold tag_in. cbn [existsb].
  rewrite H1, H2, H3, H4, H5, H6, H7, H8. reflexivity.
Qed.

(** A negation or quantifier node without children raises [IndexError]
    and leaves the interner as it was. *)
Lemma childless_connective_raises_IndexError t a tx tl st :
  tag_in t [_tag "negation"; _tag "all-paths"; _tag "exists-path"] = true ->
  translate (Elem t a tx tl []) st = (Raises IndexError, st).
Proof.
  unfold tag_in. simpl existsb. rewrite !orb_true_iff, !String.eqb_eq.
  intros [->|[->|[->|?]]]; try discriminate; reflexivity.
Qed.

(** The translation changes the interner through [_get_prop_id] only: a
    preorder on interners that every call of [_get_prop_id] follows is
    followed by every translation, whatever its outcome. *)
Lemma translate_moves_along (R : relation ExtractMCC.CTLParser) `{!PreOrder R} :
  (forall n, moves_along R (intern n)) ->
  forall node, moves_along R (translate node).
Proof.
  intros Hintern node.
  induction node as [[t a tx tl cs] IH] using Element_descendants_ind.
  cbn [children] in IH. cbn [ExtractMCC.translate_formula_node].
  walk moves_rule. all: apply Hintern.
Qed.

Section Failures.

Variable root : Element.

Lemma fails_ret {A} b (a : A) : fails_within root b (ret a).
Proof. apply raises_only_ret. Qed.

Lemma fails_raise_shape {A} e :
  e = IndexError \/ e = AttributeError -> @fails_within A root false (raise e).
Proof. intros He. apply raises_only_raise. right. auto. Qed.

Lemma fails_raise_leaf {A} b e :
  unknown_leaf_error root e -> @fails_within A root b (raise e).
Proof. intros He. apply raises_only_raise. now left. Qed.

Lemma fails_bind {A B} b (m : M _ A) (k : A -> M _ B) :
  fails_within root b m -> (forall a, fails_within root b (k a)) ->
  fails_within root b (bind m k).
Proof. apply raises_only_bind. Qed.

Lemma fails_weaken {A} b b' (m : M _ A) :
  (b = true -> b' = true) -> fails_within root b' m -> fails_within root b m.
Proof.
  intros Hb. apply raises_only_weaken. intros e [He|[Hf He]]; [now left|right].
  split; [|assumption]. destruct b; [|reflexivity]. rewrite Hb in Hf; done.
Qed.

Lemma fails_intern b node : fails_within root b (intern node).
Proof.
  intros st e. destruct (intern_returns tostring node st) as [id ->]. discriminate.
Qed.

Lemma fails_for_each {A} (shape : Element -> bool) (f : Element -> M _ A) cs :
  Forall (fun c => fails_within root (shape c) (f c)) cs ->
  fails_within root (forallb shape cs) (for_each f cs).
Proof.
  induction 1 as [|c cs Hc _ IH]; cbn [for_each forallb].
  - apply fails_ret.
  - apply fails_bind.
    + eapply fails_weaken; [|exact Hc]. intros H. now apply andb_true_iff in H.
    + intros s. apply fails_bind; [|intros ss; apply fails_ret].
      eapply fails_weaken; [|exact IH]. intros H. now apply andb_true_iff in H.
Qed.

Lemma fails_find_then {A} sel (shape : Element -> bool) (f : Element -> M _ A) cs :
  Forall (fun c => fails_within root (shape c) (f c)) cs ->
  fails_within root (find_then sel shape false cs)
    (find_then sel f (raise AttributeError) cs).
Proof.
  induction 1 as [|c cs Hc _ IH]; cbn [find_then].
  - apply fails_raise_shape. now right.
  - destruct (sel (tag c)); assumption.
Qed.

Ltac fails_rule _ :=
  match goal with
  | |- fails_within _ _ (ret _) => apply fails_ret
  | |- fails_within _ false (raise IndexError) => apply fails_raise_shape; now left
  | |- fails_within _ _ (for_each _ _) =>
      apply fails_for_each; apply deep_Forall; assumption
  | |- fails_within _ _ (find_then _ _ _ _) =>
      eapply fails_weaken;
      [|apply fails_find_then; apply deep_Forall; eassumption];
      let H := fresh in
      intros H; try discriminate H; apply andb_true_iff in H; tauto
  | |- fails_within _ _ (ExtractMCC._get_prop_id _ _) => apply fails_intern
  | |- fails_within _ _ (bind _ _) => apply fails_bind; [|intros ?]
  end.

Lemma translate_fails_within e :
  e ∈ iter root -> fails_within root (has_required_children e) (translate e).
Proof.
  induction e as [e IH] using Element_descendants_ind. intros Hin.
  assert (IH' : deep (fun d => fails_within root (has_required_children d) (translate d))
                  (children e)).
  { unfold deep in *. rewrite Forall_forall in IH |- *. intros d Hd.
    apply IH; [assumption|]. eapply iter_descendants; eassumption. }
  clear IH. destruct e as [t a tx tl cs]. cbn [children] in IH'.
  cbn [ExtractMCC.translate_formula_node has_required_children].
  walk fails_rule.
  apply fails_raise_leaf. exists (Elem t a tx tl []).
  repeat split; [assumption|]. cbn [tag].
  unfold recognized, tag_in in *. cbn [existsb] in *.
  repeat match goal with
         | H : _ || _ = false |- _ => apply orb_false_iff in H; destruct H
         end.
  repeat match goal with
         | H : ?x = false |- context [?x] => rewrite H
         end.
  reflexivity.
Qed.

End Failures.

(** C7, as the code has it. A node with an unrecognized tag is translated
    as its first child when it has one, and raises the error of an unknown
    tag, carrying its tag, when it has none.  That error, for a childless
    node of the tree with an unrecognized tag, is the only failure of the
    translation of a tree that has the children its tags call for; a tree
    that lacks one of them makes the translation raise [IndexError] or
    [AttributeError] instead. *)
Theorem unrecognized_tags_and_failures (node : Element) :
  (recognized (tag node) = false ->
   translate node =
     match children node with
     | c :: _ => translate c
     | [] => raise (ExtractMCC.unknown_tag (tag node))
     end)
  /\ (forall st e,
        fst (translate node st) = Raises e ->
        unknown_leaf_error node e
        \/ (has_required_children node = false
            /\ (e = IndexError \/ e = AttributeError)))
  /\ (has_required_children node = true ->
      forall st e, fst (translate node st) = Raises e -> unknown_leaf_error node e).
Proof.
  assert (Hfail : forall st e,
             fst (translate node st) = Raises e ->
             unknown_leaf_error node e
             \/ (has_required_children node = false
                 /\ (e = IndexError \/ e = AttributeError))).
  { intros st e. apply (translate_fails_within node node (iter_self node)). }
  split; [|split].
  - intros Hrec. destruct node as [t a tx tl [|c cs]]; cbn [tag children] in *.
    + now apply unrecognized_leaf.
    + now apply unrecognized_wrapper.
  - exact Hfail.
  - intros Hshape st e He. destruct (Hfail st e He) as [?|[Hf _]]; [assumption|].
    congruence.
Qed.

Lemma translate_extends node : moves_along extends (translate node).
Proof. apply translate_moves_along; [exact _|apply intern_extends]. Qed.

Lemma translate_consistent node st :
  consistent st -> consistent (snd (translate node st)).
Proof.
  pose (R := fun st st' : ExtractMCC.CTLParser => consistent st -> consistent st').
  assert (HR : PreOrder R) by (split; unfold R; [intros ?|intros ? ? ?]; auto).
  apply (translate_moves_along R).
  intros n s Hs. now apply intern_consistent.
Qed.

Lemma for_each_intern_returns l st :
  exists syms, fst (for_each intern l st) = Returns syms.
Proof.
  revert st. induction l as [|a l IH]; intros st; simpl; [eauto|].
  unfold bind. destruct (intern_returns tostring a st) as [id Hid].
  destruct (intern a st) as [o st1]. simpl in Hid. subst o.
  destruct (IH st1) as [syms Hs]. destruct (for_each intern l st1) as [o st2].
  simpl in Hs. subst o. simpl. eauto.
Qed.

Lemma intern_all_nil st : intern_all tostring [] st = st.
Proof. reflexivity. Qed.

Lemma intern_all_cons a l st :
  intern_all tostring (a :: l) st = intern_all tostring l (snd (intern a st)).
Proof.
  unfold intern_all. simpl. unfold bind.
  destruct (intern_returns tostring a st) as [id Hid].
  destruct (intern a st) as [o st1]. simpl in Hid. subst o. simpl.
  destruct (for_each_intern_returns l st1) as [syms Hs].
  destruct (for_each intern l st1) as [o st2]. simpl in Hs. subst o. reflexivity.
Qed.

Lemma intern_all_app l1 l2 st :
  intern_all tostring (l1 ++ l2) st = intern_all tostring l2 (intern_all tostring l1 st).
Proof.
  revert st. induction l1 as [|a l1 IH]; intros st; [reflexivity|].
  simpl. rewrite !intern_all_cons. apply IH.
Qed.

Lemma interns_ret {A} (a : A) : interns tostring [] (ret a).
Proof. intros st. reflexivity. Qed.

Lemma interns_raise {A} l e : @interns A tostring l (raise e).
Proof. intros st. exists 0. reflexivity. Qed.

Lemma interns_intern node : interns tostring [node] (intern node).
Proof.
  intros st. destruct (intern_returns tostring node st) as [id Hid].
  rewrite intern_all_cons, intern_all_nil.
  destruct (intern node st) as [o st1]. simpl in *. now subst o.
Qed.

Lemma interns_bind {A B} l1 l2 (m : M _ A) (k : A -> M _ B) :
  interns tostring l1 m -> (forall a, interns tostring l2 (k a)) ->
  interns tostring (l1 ++ l2) (bind m k).
Proof.
  intros Hm Hk st. unfold bind. specialize (Hm st).
  destruct (m st) as [[a|e] st1].
  - subst st1. specialize (Hk a (intern_all tostring l1 st)).
    destruct (k a _) as [[b|e] st2].
    + now rewrite intern_all_app.
    + destruct Hk as [n ->]. exists (length l1 + n).
      now rewrite take_app_add, intern_all_app.
  - destruct Hm as [n ->]. exists (n `min` length l1).
    rewrite take_app_le by lia. f_equal.
    destruct (decide (n <= length l1)).
    + now rewrite Nat.min_l by lia.
    + rewrite Nat.min_r by lia. rewrite take_ge by lia. now rewrite firstn_all.
Qed.

Lemma interns_bind_nil {A B} l (m : M _ A) (k : A -> M _ B) :
  interns tostring l m -> (forall a, interns tostring [] (k a)) ->
  interns tostring l (bind m k).
Proof.
  intros Hm Hk. rewrite <- (app_nil_r l). now apply interns_bind.
Qed.

Lemma interns_for_each {A} (atoms : Element -> list Element) (f : Element -> M _ A) cs :
  Forall (fun c => interns tostring (atoms c) (f c)) cs ->
  interns tostring (flat_map atoms cs) (for_each f cs).
Proof.
  induction 1 as [|c cs Hc _ IH]; cbn [for_each flat_map].
  - apply interns_ret.
  - apply interns_bind; [assumption|]. intros s.
    apply interns_bind_nil; [assumption|]. intros ss. apply interns_ret.
Qed.

Lemma interns_find_then {A} sel (atoms : Element -> list Element)
    (f : Element -> M _ A) e cs :
  Forall (fun c => interns tostring (atoms c) (f c)) cs ->
  interns tostring (find_then sel atoms [] cs) (find_then sel f (raise e) cs).
Proof.
  induction 1 as [|c cs Hc _ IH]; cbn [find_then].
  - apply interns_raise.
  - destruct (sel (tag c)); assumption.
Qed.

Ltac interns_rule _ :=
  match goal with
  | |- interns _ [] (ret _) => apply interns_ret
  | |- interns _ _ (raise _) => apply interns_raise
  | |- interns _ _ (for_each _ _) =>
      apply interns_for_each; apply deep_Forall; assumption
  | |- interns _ _ (find_then _ _ _ _) =>
      apply interns_find_then; apply deep_Forall; assumption
  | |- interns _ [_] (ExtractMCC._get_prop_id _ _) => apply interns_intern
  | |- interns _ (_ ++ _) (bind _ _) => apply interns_bind; [|intros ?]
  | |- interns _ _ (bind _ _) => apply interns_bind_nil; [|intros ?]
  end.

(** The translation interns the atomic subtrees in the order of its walk. *)
Lemma translate_interns node : interns tostring (atoms_in_order node) (translate node).
Proof.
  induction node as [[t a tx tl cs] IH] using Element_descendants_ind.
  cbn [children] in IH.
  cbn [ExtractMCC.translate_formula_node atoms_in_order].
  walk interns_rule.
Qed.

(** C4, as the code has it. A translation that fails keeps what it interned
    before it failed: the interner it leaves is the one reached by
    interning, in the order of the walk, the first atomic subtrees of the
    formula; it extends the one the translation started from (every key
    keeps its symbol, the counter has not gone back) and is consistent,
    but it need not be the one the translation started from. *)
Theorem failed_translation_extends_the_interner node st e st' :
  consistent st ->
  translate node st = (Raises e, st') ->
  extends st st' /\ consistent st'
  /\ exists n, st' = intern_all tostring (take n (atoms_in_order node)) st.
Proof.
  intros Hcons Hrun. split; [|split].
  - pose proof (translate_extends node st) as H. now rewrite Hrun in H.
  - pose proof (translate_consistent node st Hcons) as H. now rewrite Hrun in H.
  - pose proof (translate_interns node st) as H. now rewrite Hrun in H.
Qed.

(** C2. Interning any sequence of atomic subtrees in the interner of a new
    session succeeds; two subtrees get the same symbol exactly when their
    canonical serializations are equal; no symbol of the table stands for
    two keys; a subtree whose key was not seen before, after [k-1]
    distinct keys, gets the symbol [p(k-1)]; and the counter, which counts
    the distinct keys, is never decreased by a call.  The calls of one
    translation are those for the atomic subtrees of the formula in the
    order of the walk from the root, children from left to right. *)
Theorem intern_symbols_follow_first_occurrence (nodes : list Element) :
  exists syms st,
    for_each intern nodes ExtractMCC.init = (Returns syms, st)
    /\ length syms = length nodes
    /\ (forall i j a b x y,
          nodes !! i = Some a -> nodes !! j = Some b ->
          syms !! i = Some x -> syms !! j = Some y ->
          (tostring a = tostring b <-> x = y))
    /\ (forall k1 k2 v,
          ExtractMCC.propositions_map st !! k1 = Some v ->
          ExtractMCC.propositions_map st !! k2 = Some v -> k1 = k2)
    /\ (forall i a,
          nodes !! i = Some a ->
          tostring a ∉ keys tostring (take i nodes) ->
          syms !! i =
            Some ("p" +:+ pretty (size (list_to_set (keys tostring (take i nodes))
                                          : gset string))))
    /\ ExtractMCC.prop_counter st = size (list_to_set (keys tostring nodes) : gset string)
    /\ (forall node st0,
          ExtractMCC.prop_counter st0 <= ExtractMCC.prop_counter (snd (intern node st0)))
    /\ (forall formula, interns tostring (atoms_in_order formula) (translate formula)).
Proof.
  destruct (intern_sequence tostring nodes) as (syms & st & Hrun & Hint).
  destruct Hint as [Hlen Hdom Hlook Hfirst [Hcnt Hrange Hinj]].
  exists syms, st.
  split; [exact Hrun|]. split; [exact Hlen|]. split; [|split; [exact Hinj|]].
  { intros i j a b x y Hi Hj Hx Hy.
    destruct (Hlook _ _ Hi) as [_ Ha]. destruct (Hlook _ _ Hj) as [_ Hb].
    rewrite Hx in Ha. rewrite Hy in Hb. split.
    - intros E. rewrite E in Ha. congruence.
    - intros ->. eauto. }
  split; [exact Hfirst|]. split; [|split].
  - now rewrite <- Hdom, size_dom.
  - intros node st0. apply (intern_extends tostring node st0).
  - apply translate_interns.
Qed.


End Translation.

(** * The extraction drivers *)

Lemma dict_set_fresh {K V} `{EqDecision K} (d : list (K * V)) k v :
  k ∉ d.*1 -> dict_set d k v = d ++ [(k, v)].
Proof.
  induction d as [|[k' v'] d IH]; intros Hk; simpl; [reflexivity|].
  simpl in Hk. apply not_elem_of_cons in Hk as [Hne Hk].
  destruct (decide (k' = k)); [congruence|]. now rewrite IH.
Qed.

Lemma foldl_dict_update_fresh {K V} `{EqDecision K} (rs d : list (K * V)) :
  NoDup (d.*1 ++ rs.*1) -> foldl dict_update d rs = d ++ rs.
Proof.
  revert d. induction rs as [|[k v] rs IH]; intros d Hnd; simpl.
  - now rewrite app_nil_r.
  - unfold dict_update at 2. simpl.
    rewrite dict_set_fresh.
    + rewrite IH; [now rewrite <- app_assoc|].
      rewrite fmap_app. simpl. now rewrite <- app_assoc.
    + simpl in Hnd. apply NoDup_app in Hnd as (_ & Hd & _).
      intros Hin. apply (Hd k Hin). apply elem_of_cons. now left.
Qed.

Section Driver.

Variable tostring : Element -> string.

Abbreviation translate := (ExtractMCC.translate_formula_node tostring).

(** The driver of extractMCC.py assigns, in the order of the document, the
    successfully translated entries to a dict. *)
Lemma extract_loop_fold props : forall acc st,
  ExtractMCC.extract_loop tostring props acc st =
    match translated_in_order tostring props st with
    | (Returns rs, st') => (Returns (foldl dict_update acc rs), st')
    | (Raises e, st') => (Raises e, st')
    end.
Proof.
  induction props as [|p props IH]; intros acc st; [reflexivity|].
  cbn [ExtractMCC.extract_loop translated_in_order].
  destruct (find (String.eqb (_tag "id")) p) as [idn|]; [|apply IH].
  destruct (find (String.eqb (_tag "formula")) p) as [f|]; [|apply IH].
  unfold bind, except_ValueError, ret.
  destruct (translate f st) as [[s|e] st1].
  - rewrite IH. destruct (translated_in_order tostring props st1) as [[rs|e] st2];
      reflexivity.
  - destruct e; try reflexivity.
    rewrite IH. destruct (translated_in_order tostring props st1) as [[rs|e] st2];
      reflexivity.
Qed.

Lemma translated_in_order_app pre post st :
  translated_in_order tostring (pre ++ post) st =
    (do r1 <- translated_in_order tostring pre ;
     do r2 <- translated_in_order tostring post ;
     ret (r1 ++ r2)) st.
Proof.
  revert st. induction pre as [|p pre IH]; intros st.
  - simpl. unfold bind, ret. simpl.
    destruct (translated_in_order tostring post st) as [[r|e] s']; reflexivity.
  - cbn [app translated_in_order].
    destruct (find (String.eqb (_tag "id")) p) as [idn|]; [|apply IH].
    destruct (find (String.eqb (_tag "formula")) p) as [f|]; [|apply IH].
    unfold bind, except_ValueError, ret in *.
    destruct (translate f st) as [[s|e] st1].
    + rewrite IH. destruct (translated_in_order tostring pre st1) as [[r1|e] st2]; [|reflexivity].
      destruct (translated_in_order tostring post st2) as [[r2|e] st3]; reflexivity.
    + destruct e; try reflexivity.
      rewrite IH. destruct (translated_in_order tostring pre st1) as [[r1|e] st2]; [|reflexivity].
      destruct (translated_in_order tostring post st2) as [[r2|e] st3]; reflexivity.
Qed.

(** C8, as the code has it. When the ids of the successfully translated
    entries of a document are pairwise different, the driver returns
    exactly these entries, each id with its translation, in the order of
    the document. *)
Theorem distinct_ids_keep_document_order root st rs st' :
  translated_in_order tostring (findall_descendants (_tag "property") root) st
    = (Returns rs, st') ->
  NoDup rs.*1 ->
  ExtractMCC.extract_properties_from_file tostring (Some root) st = (Returns rs, st').
Proof.
  intros Hrun Hnd. cbn [ExtractMCC.extract_properties_from_file].
  rewrite extract_loop_fold, Hrun. now rewrite foldl_dict_update_fresh.
Qed.

(** An exception other than [ValueError] raised by the translation of a
    property entry leaves the driver: it is the outcome of the extraction,
    whatever was translated from the entries before. *)
Lemma uncaught_exception_aborts_extraction
    root pre p post id_node formula_node st rs st1 e st2 :
  findall_descendants (_tag "property") root = pre ++ p :: post ->
  find (String.eqb (_tag "id")) p = Some id_node ->
  find (String.eqb (_tag "formula")) p = Some formula_node ->
  translated_in_order tostring pre st = (Returns rs, st1) ->
  translate formula_node st1 = (Raises e, st2) ->
  (forall msg, e <> ValueError msg) ->
  ExtractMCC.extract_properties_from_file tostring (Some root) st = (Raises e, st2).
Proof.
  intros Hprops Hid Hf Hpre Hrun He.
  cbn [ExtractMCC.extract_properties_from_file].
  rewrite extract_loop_fold, Hprops, translated_in_order_app.
  rewrite (bind_returns _ _ _ _ _ Hpre).
  cbn [translated_in_order]. rewrite Hid, Hf.
  unfold bind, except_ValueError. rewrite Hrun.
  destruct e; try reflexivity. now destruct (He msg).
Qed.

(** C10. A negation or quantifier node without children makes the
    translation raise [IndexError] and not [ValueError]; and when the
    formula of a property entry is such a node, the driver, which catches
    [ValueError] only, raises [IndexError] itself: nothing is returned for
    the document, whatever was translated from the entries before. *)
Theorem childless_connective_aborts_extraction
    t a tx tl root pre p post id_node fa fx fl more st rs st1 :
  tag_in t [_tag "negation"; _tag "all-paths"; _tag "exists-path"] = true ->
  findall_descendants (_tag "property") root = pre ++ p :: post ->
  find (String.eqb (_tag "id")) p = Some id_node ->
  find (String.eqb (_tag "formula")) p
    = Some (Elem (_tag "formula") fa fx fl (Elem t a tx tl [] :: more)) ->
  translated_in_order tostring pre st = (Returns rs, st1) ->
  translate (Elem t a tx tl []) st1 = (Raises IndexError, st1)
  /\ ExtractMCC.extract_properties_from_file tostring (Some root) st
     = (Raises IndexError, st1).
Proof.
  intros Ht Hprops Hid Hf Hpre.
  assert (Hbad : translate (Elem t a tx tl []) st1 = (Raises IndexError, st1))
    by now apply childless_connective_raises_IndexError.
  split; [assumption|].
  apply (uncaught_exception_aborts_extraction root pre p post id_node _ st rs st1
           IndexError st1 Hprops Hid Hf Hpre); [|discriminate].
  now rewrite (unrecognized_wrapper tostring) by reflexivity.
Qed.

End Driver.

Section PrepareLoop.

Variable self : PrepareDataset.CTLParser.

Lemma prepare_loop_app n pre : forall i rest acc st,
  PrepareDataset.extract_loop self n i (pre ++ rest) acc st =
    match PrepareDataset.extract_loop self n i pre acc st with
    | (Returns acc', st') =>
        PrepareDataset.extract_loop self n (i + length pre) rest acc' st'
    | (Raises e, st') => (Raises e, st')
    end.
Proof.
  induction pre as [|p pre IH]; intros i rest acc st.
  - simpl. unfold ret. now rewrite Nat.add_0_r.
  - cbn [app PrepareDataset.extract_loop length].
    replace (i + S (length pre)) with (S i + length pre) by lia.
    destruct (find (String.eqb (_tag "id")) p) as [idn|]; [|apply IH].
    destruct (find (String.eqb (_tag "formula")) p) as [f|]; [|apply IH].
    set (body := except_ValueError _ _). unfold bind.
    destruct (body st) as [[acc1|e] st1]; [apply IH|reflexivity].
Qed.
End PrepareLoop.

(** C9. With [lola_compatible], the driver of prepare_dataset.py stores
    the translation of a property entry followed by [:] when another
    property element comes after it in the document, and the translation
    alone when the entry is the last one; the only entry of a document is
    therefore stored without the terminator. *)
Theorem terminator_separates_entries
    root pre p post id_node formula_node s acc st0 st st' :
  findall (_tag "property") root = pre ++ p :: post ->
  PrepareDataset.extract_loop (PrepareDataset.init true)
    (length (pre ++ p :: post)) 0 pre [] st0 = (Returns acc, st) ->
  find (String.eqb (_tag "id")) p = Some id_node ->
  find (String.eqb (_tag "formula")) p = Some formula_node ->
  PrepareDataset.translate_formula_node (PrepareDataset.init true) formula_node st
    = (Returns (Some s), st') ->
  PrepareDataset.extract_properties_from_file (PrepareDataset.init true) (Some root) st0
    = PrepareDataset.extract_loop (PrepareDataset.init true)
        (length (pre ++ p :: post)) (S (length pre)) post
        (dict_set acc (text id_node)
           (Some (match post with [] => s | _ :: _ => s +:+ ":" end))) st'
  /\ (pre = [] -> post = [] ->
      PrepareDataset.extract_properties_from_file (PrepareDataset.init true) (Some root) st0
        = (Returns [(text id_node, Some s)], st')).
Proof.
  intros Hprops Hpre Hid Hf Hrun.
  assert (Hstep :
    PrepareDataset.extract_properties_from_file (PrepareDataset.init true) (Some root) st0
    = PrepareDataset.extract_loop (PrepareDataset.init true)
        (length (pre ++ p :: post)) (S (length pre)) post
        (dict_set acc (text id_node)
           (Some (match post with [] => s | _ :: _ => s +:+ ":" end))) st').
  { cbn [PrepareDataset.extract_properties_from_file]. rewrite Hprops.
    rewrite prepare_loop_app, Hpre. cbn [PrepareDataset.extract_loop Nat.add].
    rewrite Hid, Hf. unfold bind at 1. unfold except_ValueError, bind at 1.
    rewrite Hrun. rewrite length_app. cbn [length].
    destruct post as [|q post]; cbn [length];
      match goal with
      | |- context [(?x <? ?y)%Z] =>
          let E := fresh in
          destruct (x <? y)%Z eqn:E;
          [apply Z.ltb_lt in E|apply Z.ltb_ge in E]; try lia
      end; reflexivity. }
  split; [exact Hstep|].
  intros -> ->. rewrite Hstep. simpl in Hpre. injection Hpre as <- <-. reflexivity.
Qed.

(** * The properties on example documents *)

Lemma pair_of_fst {A B} (p : A * B) (a : A) : fst p = a -> p = (a, snd p).
Proof. intros <-. apply surjective_pairing. Qed.

(** The conjunction of [is-fireable(t1)] and [is-fireable(t2)] is [(p0 & p1)]. *)
Lemma conjunction_of_two_fireable_atoms_witness :
  outline (is_fireable "t1") <> outline (is_fireable "t2")
  /\ exists st,
      ExtractMCC.translate_formula_node outline
        (node_of (_tag "conjunction") [is_fireable "t1"; is_fireable "t2"])
        ExtractMCC.init
      = (Returns "(p0 & p1)", st)
      /\ size (ExtractMCC.propositions_map st) = 2
      /\ ExtractMCC.propositions_map st !! outline (is_fireable "t1") = Some "p0"
      /\ ExtractMCC.propositions_map st !! outline (is_fireable "t2") = Some "p1"
      /\ ExtractMCC.prop_counter st = 2.
Proof.
  assert (H : outline (is_fireable "t1") <> outline (is_fireable "t2"))
    by (vm_compute; discriminate).
  split; [exact H|].
  apply (conjunction_of_two_fireable_atoms outline [] None None
           (is_fireable "t1") (is_fireable "t2")); [reflexivity|reflexivity|exact H].
Defined.

(** The translation of [failing_formula] raises [ValueError] after
    it has interned [is-fireable(t1)], and the entry after it in the
    document gets [p1], where it gets [p0] without the failing entry. *)
Lemma skipped_entry_consumes_a_symbol :
  ~ (forall node st msg st',
       ExtractMCC.translate_formula_node outline node st = (Raises (ValueError msg), st') ->
       st' = st)
  /\ fst (ExtractMCC.extract_properties_from_file outline
            (Some (property_set [property "a" failing_formula;
                                 property "b" (is_fireable "t2")]))
            ExtractMCC.init)
     = Returns [(Some "b", "p1")]
  /\ fst (ExtractMCC.extract_properties_from_file outline
            (Some (property_set [property "b" (is_fireable "t2")]))
            ExtractMCC.init)
     = Returns [(Some "b", "p0")].
Proof.
  split; [|split; vm_compute; reflexivity].
  intros H.
  pose (r := ExtractMCC.translate_formula_node outline failing_formula ExtractMCC.init).
  specialize (H failing_formula ExtractMCC.init
                ("Unknown or unhandled XML tag: " +:+ _tag "deadlock") (snd r)).
  assert (E : ExtractMCC.prop_counter (snd r) = 1) by (vm_compute; reflexivity).
  rewrite H in E; [discriminate E|].
  assert (Hf : fst r = Raises (ValueError ("Unknown or unhandled XML tag: " +:+ _tag "deadlock")))
    by (vm_compute; reflexivity).
  rewrite <- Hf. apply surjective_pairing.
Qed.

(** The interner left by the failed translation of [failing_formula]. *)
Lemma failed_translation_extends_the_interner_witness :
  let r := ExtractMCC.translate_formula_node outline failing_formula ExtractMCC.init in
  consistent ExtractMCC.init
  /\ r = (Raises (ExtractMCC.unknown_tag (_tag "deadlock")), snd r)
  /\ extends ExtractMCC.init (snd r) /\ consistent (snd r)
  /\ (exists n, snd r = intern_all outline (take n (atoms_in_order failing_formula))
                        ExtractMCC.init)
  /\ ExtractMCC.prop_counter (snd r) = 1.
Proof.
  intros r.
  assert (Hf : fst r = Raises (ExtractMCC.unknown_tag (_tag "deadlock")))
    by (vm_compute; reflexivity).
  assert (Hr : r = (Raises (ExtractMCC.unknown_tag (_tag "deadlock")), snd r))
    by (rewrite <- Hf; apply surjective_pairing).
  split; [apply consistent_init|]. split; [exact Hr|].
  pose proof (failed_translation_extends_the_interner outline failing_formula
                ExtractMCC.init _ _ consistent_init Hr) as (He & Hc & Hn).
  split; [exact He|]. split; [exact Hc|]. split; [exact Hn|].
  vm_compute. reflexivity.
Defined.

(** A [place] leaf raises the error
    of an unknown tag where the interner would give [p0], and under an
    [integer-eq] node it is the first child that is interned. *)
Lemma place_leaf_is_not_interned :
  ExtractMCC.translate_formula_node outline (leaf_of (_tag "place") "P1") ExtractMCC.init
    = (Raises (ExtractMCC.unknown_tag (_tag "place")), ExtractMCC.init)
  /\ fst (ExtractMCC._get_prop_id outline (leaf_of (_tag "place") "P1") ExtractMCC.init)
     = Returns "p0"
  /\ (let node := node_of (_tag "integer-eq") [tokens_count "P1"; integer_constant "1"] in
      let st := snd (ExtractMCC.translate_formula_node outline node ExtractMCC.init) in
      ExtractMCC.propositions_map st !! outline node = None
      /\ ExtractMCC.propositions_map st !! outline (tokens_count "P1") = Some "p0").
Proof. repeat split; vm_compute; reflexivity. Qed.

(** The translation of
    [exists-path(until(before(is-fireable(t1)), reach(is-fireable(t2))))]. *)
Lemma until_translates_the_wrapped_operands_witness :
  let before := is_fireable "t1" in
  let reach := is_fireable "t2" in
  let quantified :=
    node_of (_tag "exists-path")
      [node_of (_tag "until")
         [node_of (_tag "before") [before]; node_of (_tag "reach") [reach]]] in
  in_namespace (tag before) = true /\ in_namespace (tag reach) = true
  /\ ExtractMCC.translate_formula_node outline quantified
     = (do before_expr <- ExtractMCC.translate_formula_node outline before ;
        do reach_expr <- ExtractMCC.translate_formula_node outline reach ;
        ret ("E" +:+ "(" +:+ before_expr +:+ " U " +:+ reach_expr +:+ ")"))
  /\ fst (ExtractMCC.translate_formula_node outline quantified ExtractMCC.init)
     = Returns "E(p0 U p1)".
Proof.
  intros before reach quantified.
  split; [reflexivity|]. split; [reflexivity|]. split.
  - apply (until_translates_the_wrapped_operands outline false [] None None [] None None
             (node_of (_tag "before") [before]) (node_of (_tag "reach") [reach])
             before reach []); reflexivity.
  - vm_compute. reflexivity.
Defined.
(** A negation without children raises [IndexError], which is no
    [ValueError], in a tree that has no node of an unrecognized tag. *)
Lemma childless_negation_raises_IndexError :
  let node := node_of (_tag "negation") [] in
  ExtractMCC.translate_formula_node outline node ExtractMCC.init
    = (Raises IndexError, ExtractMCC.init)
  /\ (forall leaf, leaf ∈ iter node -> recognized (tag leaf) = true)
  /\ (forall msg, IndexError <> ValueError msg).
Proof.
  repeat split; try discriminate.
  intros leaf Hl. cbn in Hl. apply elem_of_cons in Hl as [->|Hl]; [reflexivity|].
  inversion Hl.
Qed.

(** Of three translated entries with the ids [a], [b], [a] the
    driver returns two, and the first result carries the translation of
    the third entry. *)
Lemma repeated_id_breaks_document_order :
  fst (ExtractMCC.extract_properties_from_file outline (Some repeated_ids) ExtractMCC.init)
    = Returns [(Some "a", "p2"); (Some "b", "p1")]
  /\ fst (translated_in_order outline
            (findall_descendants (_tag "property") repeated_ids) ExtractMCC.init)
     = Returns [(Some "a", "p0"); (Some "b", "p1"); (Some "a", "p2")].
Proof. split; vm_compute; reflexivity. Qed.

(** A document of two entries with different ids. *)
Lemma distinct_ids_keep_document_order_witness :
  let r := translated_in_order outline
             (findall_descendants (_tag "property") two_properties) ExtractMCC.init in
  let rs := [(Some "a", "p0"); (Some "b", "p1")] in
  r = (Returns rs, snd r)
  /\ NoDup rs.*1
  /\ ExtractMCC.extract_properties_from_file outline (Some two_properties) ExtractMCC.init
     = (Returns rs, snd r).
Proof.
  intros r rs.
  assert (Hr : r = (Returns rs, snd r)) by (apply pair_of_fst; vm_compute; reflexivity).
  assert (Hnd : NoDup rs.*1) by (apply (bool_decide_unpack (NoDup rs.*1)); vm_compute; exact I).
  split; [exact Hr|]. split; [exact Hnd|].
  apply (distinct_ids_keep_document_order outline two_properties ExtractMCC.init rs (snd r)
           Hr Hnd).
Defined.

(** A document of two entries: the first is stored with the
    terminator, the last without. *)
Lemma terminator_separates_entries_witness :
  let self := PrepareDataset.init true in
  let p := property "a" (at_most "P1" "1") in
  let post := [property "b" (at_most "P2" "2")] in
  findall (_tag "property") two_bounds = [] ++ p :: post
  /\ PrepareDataset.translate_formula_node self
       (node_of (_tag "formula") [at_most "P1" "1"]) []
     = (Returns (Some "(P1 <= 1)"), [])
  /\ PrepareDataset.extract_properties_from_file self (Some two_bounds) []
     = PrepareDataset.extract_loop self 2 1 post [(Some "a", Some "(P1 <= 1):")] []
  /\ PrepareDataset.extract_properties_from_file self (Some two_bounds) []
     = (Returns [(Some "a", Some "(P1 <= 1):"); (Some "b", Some "(P2 <= 2)")], []).
Proof.
  intros self p post.
  assert (H1 : findall (_tag "property") two_bounds = [] ++ p :: post)
    by (vm_compute; reflexivity).
  assert (H2 : PrepareDataset.translate_formula_node self
                 (node_of (_tag "formula") [at_most "P1" "1"]) []
               = (Returns (Some "(P1 <= 1)"), [])) by (vm_compute; reflexivity).
  split; [exact H1|]. split; [exact H2|]. split; [|vm_compute; reflexivity].
  apply (terminator_separates_entries two_bounds [] p post
           (leaf_of (_tag "id") "a") (node_of (_tag "formula") [at_most "P1" "1"])
           "(P1 <= 1)" [] [] [] [] H1 eq_refl eq_refl eq_refl H2).
Defined.

(** A document whose second entry is a negation without children:
    the extraction raises [IndexError] after the first entry was
    translated. *)
Lemma childless_connective_aborts_extraction_witness :
  let pre := [property "a" (is_fireable "t1")] in
  let p := property "b" (node_of (_tag "negation") []) in
  let r := translated_in_order outline pre ExtractMCC.init in
  findall_descendants (_tag "property") childless_negation = pre ++ p :: []
  /\ r = (Returns [(Some "a", "p0")], snd r)
  /\ ExtractMCC.translate_formula_node outline (node_of (_tag "negation") []) (snd r)
     = (Raises IndexError, snd r)
  /\ ExtractMCC.extract_properties_from_file outline (Some childless_negation)
       ExtractMCC.init
     = (Raises IndexError, snd r).
Proof.
  intros pre p r.
  assert (H1 : findall_descendants (_tag "property") childless_negation = pre ++ p :: [])
    by (vm_compute; reflexivity).
  assert (Hr : r = (Returns [(Some "a", "p0")], snd r))
    by (apply pair_of_fst; vm_compute; reflexivity).
  split; [exact H1|]. split; [exact Hr|].
  apply (childless_connective_aborts_extraction outline (_tag "negation") [] None None
           childless_negation pre p [] (leaf_of (_tag "id") "b") [] None None []
           ExtractMCC.init [(Some "a", "p0")] (snd r) eq_refl H1 eq_refl eq_refl Hr).
Defined.

(** * Further properties of the translator of extractMCC.py *)

Lemma depth_app s1 s2 d :
  paren_depth (s1 +:+ s2) d =
    match paren_depth s1 d with
    | Some d' => paren_depth s2 d'
    | None => None
    end.
Proof.
  revert d. induction s1 as [|c s1 IH]; intros d; simpl; [reflexivity|].
  destruct (Ascii.eqb c "("); [apply IH|].
  destruct (Ascii.eqb c ")"); [|apply IH]. destruct d; [reflexivity|apply IH].
Qed.

Lemma depth_shift s k : forall d d',
  paren_depth s d = Some d' -> paren_depth s (d + k) = Some (d' + k).
Proof.
  induction s as [|c s IH]; intros d d'; simpl.
  - now intros [= ->].
  - destruct (Ascii.eqb c "("); [apply (IH (S d))|].
    destruct (Ascii.eqb c ")"); [|apply IH].
    destruct d; [discriminate|]. apply IH.
Qed.

Lemma balanced_at s d : balanced s -> paren_depth s d = Some d.
Proof. intros H. apply (depth_shift s d 0 0 H). Qed.

Lemma balanced_concat sep ss :
  balanced sep -> Forall balanced ss -> balanced (String.concat sep ss).
Proof.
  intros Hsep. induction 1 as [|s ss Hs Hss IH]; [reflexivity|].
  destruct ss as [|s' ss]; [exact Hs|].
  change (String.concat sep (s :: s' :: ss))
    with (s +:+ sep +:+ String.concat sep (s' :: ss)).
  unfold balanced. rewrite depth_app, (balanced_at s 0 Hs).
  rewrite depth_app, (balanced_at sep 0 Hsep). exact IH.
Qed.

Lemma digit_plain (x : N) s d :
  paren_depth (String (pretty_N_char x) s) d = paren_depth s d.
Proof. unfold pretty_N_char. repeat case_match; reflexivity. Qed.

Lemma pretty_N_go_plain x : forall s,
  (forall d, paren_depth s d = Some d) ->
  forall d, paren_depth (pretty_N_go x s) d = Some d.
Proof.
  induction (N.lt_wf_0 x) as [x _ IH]; intros s Hs d.
  destruct (decide (0 < x)%N) as [Hx|Hx].
  - rewrite pretty_N_go_step by assumption.
    apply IH; [now apply N.div_lt|]. intros d0. now rewrite digit_plain.
  - assert (x = 0%N) as -> by lia. rewrite pretty_N_go_0. apply Hs.
Qed.

Lemma symbol_balanced (n : nat) : balanced ("p" +:+ pretty n).
Proof.
  unfold balanced. simpl. unfold pretty, pretty_nat, pretty, pretty_N.
  destruct (decide (N.of_nat n = 0%N)); [reflexivity|].
  now apply pretty_N_go_plain.
Qed.

Section Translation_more.

Variable tostring : Element -> string.

Abbreviation translate := (ExtractMCC.translate_formula_node tostring).
Abbreviation intern := (ExtractMCC._get_prop_id tostring).

Lemma replays_ret {A} (a : A) : replays (ret a).
Proof.
  split; [apply moves_ret; exact _|]. intros st b st' [= <- <-] st2 _. reflexivity.
Qed.

Lemma replays_raise {A} e : @replays A (raise e).
Proof. split; [apply moves_raise; exact _|]. intros st b st' [=]. Qed.

Lemma replays_intern node : replays (intern node).
Proof.
  split; [apply intern_extends|].
  intros st id st' Hrun st2 [Hsub _].
  assert (Hk : ExtractMCC.propositions_map st' !! tostring node = Some id).
  { rewrite intern_eq in Hrun.
    destruct (ExtractMCC.propositions_map st !! tostring node) as [v|] eqn:Hk;
      injection Hrun as <- <-; [assumption|]. simpl. apply lookup_insert_eq. }
  rewrite intern_eq. now rewrite (lookup_weaken _ _ _ _ Hk Hsub).
Qed.

Lemma replays_bind {A B} (m : M _ A) (k : A -> M _ B) :
  replays m -> (forall a, replays (k a)) -> replays (bind m k).
Proof.
  intros [Hm1 Hm2] Hk. split.
  - apply moves_bind; [exact _|assumption|]. intros a. apply Hk.
  - intros st b st' Hrun st2 Hext. unfold bind in *.
    destruct (m st) as [[a|e] st1] eqn:Hm; [|discriminate].
    destruct (Hk a) as [Hk1 Hk2].
    assert (Hext1 : extends st1 st2).
    { etransitivity; [|exact Hext]. pose proof (Hk1 st1) as H. now rewrite Hrun in H. }
    rewrite (Hm2 _ _ _ Hm st2 Hext1). exact (Hk2 st1 b st' Hrun st2 Hext).
Qed.

Lemma replays_for_each {A} (f : Element -> M _ A) cs :
  Forall (fun c => replays (f c)) cs -> replays (for_each f cs).
Proof.
  induction 1 as [|c cs Hc _ IH]; cbn [for_each].
  - apply replays_ret.
  - apply replays_bind; [assumption|]. intros s.
    apply replays_bind; [assumption|]. intros ss. apply replays_ret.
Qed.

Lemma replays_find_then {A} sel (f : Element -> M _ A) e cs :
  Forall (fun c => replays (f c)) cs -> replays (find_then sel f (raise e) cs).
Proof.
  induction 1 as [|c cs Hc _ IH]; cbn [find_then].
  - apply replays_raise.
  - destruct (sel (tag c)); assumption.
Qed.

Ltac replays_rule _ :=
  match goal with
  | |- replays (ret _) => apply replays_ret
  | |- replays (raise _) => apply replays_raise
  | |- replays (for_each _ _) => apply replays_for_each; apply deep_Forall; assumption
  | |- replays (find_then _ _ _ _) =>
      apply replays_find_then; apply deep_Forall; assumption
  | |- replays (ExtractMCC._get_prop_id _ _) => apply replays_intern
  | |- replays (bind _ _) => apply replays_bind; [|intros ?]
  end.

(** A translation that has returned returns the same from every later
    interner. *)
Lemma translate_replays node : replays (translate node).
Proof.
  induction node as [[t a tx tl cs] IH] using Element_descendants_ind.
  cbn [children] in IH. cbn [ExtractMCC.translate_formula_node].
  walk replays_rule.
Qed.

(** X1. A formula that was translated is translated to the same string at
    any later point of the session, and this translation allocates no
    symbol: the interner it starts from is the one it leaves. *)
Theorem retranslation_is_stable node st s st' st2 :
  translate node st = (Returns s, st') ->
  extends st' st2 ->
  translate node st2 = (Returns s, st2).
Proof. intros Hrun Hext. exact (proj2 (translate_replays node) st s st' Hrun st2 Hext). Qed.

Lemma yields_ret {A} (Q : A -> Prop) a : Q a -> yields Q (ret a).
Proof. intros H st Hst. split; [assumption|]. now intros b st' [= <- _]. Qed.

Lemma yields_raise {A} (Q : A -> Prop) e : yields Q (raise e).
Proof. intros st Hst. split; [assumption|]. intros b st' [=]. Qed.

Lemma yields_bind {A B} (Q : A -> Prop) (Q' : B -> Prop) (m : M _ A) (k : A -> M _ B) :
  yields Q m -> (forall a, Q a -> yields Q' (k a)) -> yields Q' (bind m k).
Proof.
  intros Hm Hk st Hst. unfold bind. destruct (Hm st Hst) as [Hc Hq].
  destruct (m st) as [[a|e] st1]; simpl in Hc.
  - apply (Hk a (Hq a st1 eq_refl) st1 Hc).
  - split; [assumption|]. intros b st' [=].
Qed.

Lemma yields_for_each {A} (Q : A -> Prop) (f : Element -> M _ A) cs :
  Forall (fun c => yields Q (f c)) cs -> yields (Forall Q) (for_each f cs).
Proof.
  induction 1 as [|c cs Hc _ IH]; cbn [for_each].
  - apply yields_ret. constructor.
  - eapply yields_bind; [exact Hc|]. intros a Ha.
    eapply yields_bind; [exact IH|]. intros l Hl. apply yields_ret. now constructor.
Qed.

Lemma yields_find_then {A} (Q : A -> Prop) sel (f : Element -> M _ A) e cs :
  Forall (fun c => yields Q (f c)) cs -> yields Q (find_then sel f (raise e) cs).
Proof.
  induction 1 as [|c cs Hc _ IH]; cbn [find_then].
  - apply yields_raise.
  - destruct (sel (tag c)); assumption.
Qed.

Lemma yields_intern node : yields balanced (intern node).
Proof.
  intros st Hst. split; [now apply intern_consistent|].
  intros id st'. rewrite intern_eq.
  destruct (ExtractMCC.propositions_map st !! tostring node) as [v|] eqn:Hk;
    intros [= <- _].
  - destruct (cons_range st Hst _ _ Hk) as (j & _ & ->). apply symbol_balanced.
  - apply symbol_balanced.
Qed.

Ltac solve_balanced :=
  unfold balanced in *;
  repeat first
    [ reflexivity
    | progress cbn
    | rewrite depth_app
    | match goal with
      | H : paren_depth ?s 0 = Some 0 |- context [paren_depth ?s ?d] =>
          rewrite (balanced_at s d H)
      | H : Forall _ ?l |- context [paren_depth (String.concat ?sep ?l) ?d] =>
          rewrite (balanced_at (String.concat sep l) d
                     (balanced_concat sep l eq_refl H))
      | |- context [if ?b then _ else _] => destruct b
      end ].

Ltac yields_rule _ :=
  match goal with
  | |- yields _ (ExtractMCC.translate_formula_node _ _) => eassumption
  | |- yields _ (ret _) => apply yields_ret; solve_balanced
  | |- yields _ (raise _) => apply yields_raise
  | |- yields _ (for_each _ _) => apply yields_for_each; apply deep_Forall; eassumption
  | |- yields _ (find_then _ _ _ _) =>
      apply yields_find_then; apply deep_Forall; eassumption
  | |- yields _ (ExtractMCC._get_prop_id _ _) => apply yields_intern
  | |- yields _ (bind _ _) => eapply yields_bind; [|intros ? ?]
  end.

Lemma translate_yields_balanced node : yields balanced (translate node).
Proof.
  induction node as [[t a tx tl cs] IH] using Element_descendants_ind.
  cbn [children] in IH. cbn [ExtractMCC.translate_formula_node].
  walk yields_rule.
Qed.

(** X2. From a consistent interner, the string a translation returns has
    its parentheses balanced: every [(] is closed by a later [)], and no
    [)] comes without a [(] before it. *)
Theorem translation_is_well_parenthesized node st s st' :
  consistent st ->
  translate node st = (Returns s, st') ->
  balanced s.
Proof. intros Hst Hrun. eapply translate_yields_balanced; eassumption. Qed.

(** X3. A quantifier node whose first child is none of the four temporal
    operators is translated as that child: the quantifier leaves no trace
    in the result. *)
Theorem quantifier_without_temporal_operator_is_dropped
    (all_paths : bool) a tx tl (op : Element) rest :
  temporal_operator (tag op) = false ->
  translate (Elem (if all_paths then _tag "all-paths" else _tag "exists-path")
               a tx tl (op :: rest))
  = translate op.
Proof.
  destruct op as [ot oa ox ol ocs]. unfold temporal_operator, tag_in.
  cbn [tag existsb]. rewrite !orb_false_iff. intros (H1 & H2 & H3 & H4 & _).
  destruct all_paths; cbn [ExtractMCC.translate_formula_node];
    rewrite H1, H2, H3, H4; reflexivity.
Qed.
End Translation_more.

(** * Further properties of the driver of extractMCC.py *)

Lemma dict_set_keys {K V} `{EqDecision K} (d : list (K * V)) k v x :
  x ∈ (dict_set d k v).*1 <-> x = k \/ x ∈ d.*1.
Proof.
  induction d as [|[k' v'] d IH]; simpl.
  - rewrite list_elem_of_singleton, elem_of_nil. tauto.
  - destruct (decide (k' = k)) as [->|Hne]; simpl.
    + rewrite !elem_of_cons. tauto.
    + rewrite !elem_of_cons, IH. tauto.
Qed.

Lemma dict_set_NoDup {K V} `{EqDecision K} (d : list (K * V)) k v :
  NoDup d.*1 -> NoDup (dict_set d k v).*1.
Proof.
  induction d as [|[k' v'] d IH]; simpl; intros Hnd.
  - apply NoDup_singleton.
  - apply NoDup_cons in Hnd as [Hk' Hnd].
    destruct (decide (k' = k)) as [->|Hne]; simpl.
    + now apply NoDup_cons.
    + apply NoDup_cons. split; [|auto].
      rewrite dict_set_keys. intros [?|?]; [congruence|done].
Qed.

Lemma dict_set_length {K V} `{EqDecision K} (d : list (K * V)) k v :
  length d <= length (dict_set d k v) <= S (length d).
Proof.
  induction d as [|[k' v'] d IH]; simpl; [lia|].
  destruct (decide (k' = k)); simpl; lia.
Qed.

Lemma foldl_dict_update_NoDup {K V} `{EqDecision K} (rs d : list (K * V)) :
  NoDup d.*1 -> NoDup (foldl dict_update d rs).*1.
Proof.
  revert d. induction rs as [|[k v] rs IH]; intros d Hd; simpl; [assumption|].
  apply IH. now apply dict_set_NoDup.
Qed.

Lemma foldl_dict_update_keys {K V} `{EqDecision K} (rs d : list (K * V)) x :
  x ∈ (foldl dict_update d rs).*1 <-> x ∈ d.*1 \/ x ∈ rs.*1.
Proof.
  revert d. induction rs as [|[k v] rs IH]; intros d; simpl.
  - rewrite elem_of_nil. tauto.
  - rewrite IH. unfold dict_update. simpl. rewrite dict_set_keys, elem_of_cons. tauto.
Qed.

Lemma foldl_dict_update_length {K V} `{EqDecision K} (rs d : list (K * V)) :
  length (foldl dict_update d rs) <= length d + length rs.
Proof.
  revert d. induction rs as [|[k v] rs IH]; intros d; simpl; [lia|].
  etransitivity; [apply IH|]. unfold dict_update. simpl.
  pose proof (dict_set_length d k v). lia.
Qed.

Section Driver_more.

Variable tostring : Element -> string.

Abbreviation translate := (ExtractMCC.translate_formula_node tostring).

(** What [translated_in_order] collects comes from the entries, at most one
    pair for each. *)
Lemma translated_in_order_entries props : forall st rs st',
  translated_in_order tostring props st = (Returns rs, st') ->
  length rs <= length props
  /\ forall k, k ∈ rs.*1 -> exists p, p ∈ props /\ has_id k p.
Proof.
  induction props as [|p props IH]; intros st rs st' Hrun.
  - injection Hrun as <- <-. split; [reflexivity|]. intros k Hk. inversion Hk.
  - cbn [translated_in_order] in Hrun.
    assert (Hrest : forall st0 rs0 st0',
              translated_in_order tostring props st0 = (Returns rs0, st0') ->
              length rs0 <= length (p :: props)
              /\ forall k, k ∈ rs0.*1 -> exists q, q ∈ p :: props /\ has_id k q).
    { intros st0 rs0 st0' H0. destruct (IH _ _ _ H0) as [Hl Hk]. split; [simpl; lia|].
      intros k Hin. destruct (Hk k Hin) as (q & Hq & Hid). exists q.
      split; [now apply elem_of_cons; right|assumption]. }
    destruct (find (String.eqb (_tag "id")) p) as [idn|] eqn:Hid; [|eauto].
    destruct (find (String.eqb (_tag "formula")) p) as [f|] eqn:Hf; [|eauto].
    unfold bind, except_ValueError, ret in Hrun.
    assert (Hp : has_id (text idn) p) by (exists idn; auto).
    destruct (translate f st) as [[s|e] st1].
    + destruct (translated_in_order tostring props st1) as [[rs1|e] st2] eqn:H1;
        [|discriminate].
      injection Hrun as <- <-. destruct (IH _ _ _ H1) as [Hl Hk]. split; [simpl; lia|].
      intros k Hin. simpl in Hin. apply elem_of_cons in Hin as [->|Hin].
      * exists p. split; [apply elem_of_cons; now left|assumption].
      * destruct (Hk k Hin) as (q & Hq & Hidq). exists q.
        split; [now apply elem_of_cons; right|assumption].
    + destruct e; try discriminate.
      destruct (translated_in_order tostring props st1) as [[rs1|e] st2] eqn:H1;
        [|discriminate].
      injection Hrun as <- <-. simpl. eauto.
Qed.

(** The exceptions that leave [translated_in_order] are those of a formula
    without the children its tags call for. *)
Lemma translated_in_order_failures props : forall st,
  (exists rs, fst (translated_in_order tostring props st) = Returns rs)
  \/ fst (translated_in_order tostring props st) = Raises IndexError
  \/ fst (translated_in_order tostring props st) = Raises AttributeError.
Proof.
  induction props as [|p props IH]; intros st; [left; eexists; reflexivity|].
  cbn [translated_in_order].
  destruct (find (String.eqb (_tag "id")) p) as [idn|]; [|apply IH].
  destruct (find (String.eqb (_tag "formula")) p) as [f|]; [|apply IH].
  unfold bind, except_ValueError, ret.
  pose proof (translate_fails_within tostring f f (iter_self f) st) as Hfail.
  destruct (translate f st) as [[s|e] st1].
  - destruct (IH st1) as [[rs Hrs]|[Hi|Ha]];
      destruct (translated_in_order tostring props st1) as [[rs1|e1] st2];
      simpl in *; try discriminate; eauto.
  - destruct (Hfail e eq_refl) as [(leaf & _ & _ & _ & ->)|[_ [-> | ->]]];
      [|simpl; auto..].
    unfold ExtractMCC.unknown_tag.
    destruct (IH st1) as [[rs Hrs]|[Hi|Ha]];
      destruct (translated_in_order tostring props st1) as [[rs1|e1] st2];
      simpl in *; try discriminate; eauto.
Qed.

(** X4. The extraction of a file returns, or raises [IndexError] or
    [AttributeError]: the [ValueError] of the translation never leaves
    the driver, and no other exception arises. *)
Theorem extraction_fails_only_by_missing_children parsed st :
  (exists rs, fst (ExtractMCC.extract_properties_from_file tostring parsed st) = Returns rs)
  \/ fst (ExtractMCC.extract_properties_from_file tostring parsed st) = Raises IndexError
  \/ fst (ExtractMCC.extract_properties_from_file tostring parsed st)
     = Raises AttributeError.
Proof.
  destruct parsed as [root|]; [|left; eexists; reflexivity].
  cbn [ExtractMCC.extract_properties_from_file]. rewrite extract_loop_fold.
  destruct (translated_in_order_failures
              (findall_descendants (_tag "property") root) st) as [[rs H]|[H|H]];
    destruct (translated_in_order _ _ st) as [[rs0|e] st']; simpl in *;
    try discriminate; eauto.
Qed.

(** X5. A property element without id or without formula is passed over:
    the extraction is that of the other property elements. *)
Theorem malformed_entry_is_skipped root pre p post st :
  findall_descendants (_tag "property") root = pre ++ p :: post ->
  has_id_and_formula p = false ->
  ExtractMCC.extract_properties_from_file tostring (Some root) st
  = ExtractMCC.extract_loop tostring (pre ++ post) [] st.
Proof.
  intros Hprops Hbad. cbn [ExtractMCC.extract_properties_from_file].
  rewrite Hprops, !extract_loop_fold, !translated_in_order_app.
  unfold bind. destruct (translated_in_order tostring pre st) as [[r1|e] st1]; [|reflexivity].
  cbn [translated_in_order]. unfold has_id_and_formula in Hbad.
  destruct (find (String.eqb (_tag "id")) p) as [idn|]; [|reflexivity].
  destruct (find (String.eqb (_tag "formula")) p) as [f|]; [discriminate|reflexivity].
Qed.

Lemma translated_in_order_returns props : forall st,
  forallb formula_has_required_children props = true ->
  exists rs st', translated_in_order tostring props st = (Returns rs, st').
Proof.
  induction props as [|p props IH]; intros st Hall; [eexists _, _; reflexivity|].
  cbn [forallb] in Hall. apply andb_true_iff in Hall as [Hp Hall].
  cbn [translated_in_order]. unfold formula_has_required_children in Hp.
  destruct (find (String.eqb (_tag "id")) p) as [idn|]; [|now apply IH].
  destruct (find (String.eqb (_tag "formula")) p) as [f|]; [|now apply IH].
  unfold bind, except_ValueError, ret.
  pose proof (translate_fails_within tostring f f (iter_self f) st) as Hfail.
  rewrite Hp in Hfail.
  destruct (translate f st) as [[s|e] st1].
  - destruct (IH st1 Hall) as (rs & st' & ->). eexists _, _; reflexivity.
  - destruct (Hfail e eq_refl) as [(leaf & _ & _ & _ & ->)|[? _]]; [|discriminate].
    unfold ExtractMCC.unknown_tag.
    destruct (IH st1 Hall) as (rs & st' & ->). eexists _, _; reflexivity.
Qed.

(** X6. The extraction of a document returns when the formula of every
    property element has the children its tags call for: an entry is then
    translated or, for an unknown tag, passed over, and none makes the
    extraction fail. *)
Theorem extraction_returns_on_shaped_formulas root st :
  forallb formula_has_required_children (findall_descendants (_tag "property") root)
    = true ->
  exists rs st',
    ExtractMCC.extract_properties_from_file tostring (Some root) st = (Returns rs, st').
Proof.
  intros Hall. cbn [ExtractMCC.extract_properties_from_file]. rewrite extract_loop_fold.
  destruct (translated_in_order_returns _ st Hall) as (rs & st' & ->).
  eexists _, _; reflexivity.
Qed.

(** X7. The ids of the result of an extraction are pairwise different,
    each is the id of a property element of the document, and there are at
    most as many results as property elements. *)
Theorem extraction_result_is_keyed_by_entry_ids root st rs st' :
  ExtractMCC.extract_properties_from_file tostring (Some root) st = (Returns rs, st') ->
  NoDup rs.*1
  /\ length rs <= length (findall_descendants (_tag "property") root)
  /\ forall k, k ∈ rs.*1 ->
       exists p, p ∈ findall_descendants (_tag "property") root /\ has_id k p.
Proof.
  cbn [ExtractMCC.extract_properties_from_file]. rewrite extract_loop_fold.
  destruct (translated_in_order _ _ st) as [[rs0|e] st0] eqn:Hrun; [|discriminate].
  intros [= <- <-]. destruct (translated_in_order_entries _ _ _ _ Hrun) as [Hlen Hkeys].
  split; [|split].
  - apply foldl_dict_update_NoDup. constructor.
  - pose proof (foldl_dict_update_length rs0 []). simpl in *. lia.
  - intros k Hk. apply foldl_dict_update_keys in Hk as [Hk|Hk]; [inversion Hk|].
    now apply Hkeys.
Qed.

End Driver_more.

(** * The loop of [main] of extractMCC.py *)

Section Main_loop.

Import ExtractMCCMain.

Variable tostring : Element -> string.
Variable path_join : string -> string -> string.
Variable parent_name : string -> string.
Variable parse : string -> option Element.
Variable output_folder : string.

Abbreviation process :=
  (process_file tostring path_join parent_name parse output_folder).

Lemma collect_keys file_path properties all k :
  k ∈ all.*1 -> k ∈ (collect parent_name file_path properties all).*1.
Proof.
  unfold collect. revert all.
  induction properties as [|[i s] properties IH]; intros all Hk; simpl; [assumption|].
  apply IH. apply dict_set_keys. now right.
Qed.

Lemma process_file_keeps_keys root file run run' k :
  process root file run = (Returns tt, run') ->
  k ∈ (all_properties run).*1 -> k ∈ (all_properties run').*1.
Proof.
  unfold process_file. destruct (file =? ".DS_Store").
  - intros [= <-]. auto.
  - destruct (ExtractMCC.extract_properties_from_file _ _ _) as [[props|e] st];
      [|discriminate].
    intros [= <-] Hk. simpl. destruct props; [assumption|now apply collect_keys].
Qed.

Lemma process_files_keep_keys root files : forall run run' k,
  process_files tostring path_join parent_name parse output_folder root files run
    = (Returns tt, run') ->
  k ∈ (all_properties run).*1 -> k ∈ (all_properties run').*1.
Proof.
  induction files as [|file files IH]; intros run run' k; cbn [process_files].
  - intros [= <-]. auto.
  - unfold bind. destruct (process root file run) as [[[]|e] run1] eqn:E; [|discriminate].
    intros Hrest Hk. eapply IH; [eassumption|].
    eapply process_file_keeps_keys; eassumption.
Qed.

(** X8. The file that [main] writes for an input file holds one line for
    every entry of [all_properties] as it is after that file, and
    [all_properties] loses no id along the loop: the output of a file
    lists the formulas collected from all the files before it as well. *)
Theorem main_outputs_accumulate root file walk run run1 run2 :
  (file =? ".DS_Store") = false ->
  process root file run = (Returns tt, run1) ->
  main_loop tostring path_join parent_name parse output_folder walk run1
    = (Returns tt, run2) ->
  written run1 !! output_path output_folder file = Some (lines (all_properties run1))
  /\ (forall k, k ∈ (all_properties run).*1 -> k ∈ (all_properties run1).*1)
  /\ (forall k, k ∈ (all_properties run1).*1 -> k ∈ (all_properties run2).*1).
Proof.
  intros Hfile Hrun Hloop. split; [|split].
  - unfold process_file in Hrun. rewrite Hfile in Hrun.
    destruct (ExtractMCC.extract_properties_from_file _ _ _) as [[props|e] st];
      [|discriminate].
    injection Hrun as <-. simpl. apply lookup_insert_eq.
  - intros k. eapply process_file_keeps_keys; eassumption.
  - clear Hrun. revert run1 Hloop.
    induction walk as [|[r files] walk IH]; intros run1; cbn [main_loop].
    + intros [= <-]. auto.
    + unfold bind.
      destruct (process_files _ _ _ _ _ r files run1) as [[[]|e] run'] eqn:E;
        [|discriminate].
      intros Hrest k Hk. eapply IH; [eassumption|].
      eapply process_files_keep_keys; eassumption.
Qed.

End Main_loop.

(** * Further properties of prepare_dataset.py *)

Section Prepare_more.

Variable self : PrepareDataset.CTLParser.

Abbreviation ptranslate := (PrepareDataset.translate_formula_node self).

Lemma quiet_ret {A} (a : A) : reads_nothing (ret a).
Proof. intros st b st' [= _ <-]. reflexivity. Qed.

Lemma quiet_raise {A} e : @reads_nothing A (raise e).
Proof. intros st b st' [=]. Qed.

Lemma quiet_bind {A B} (m : M _ A) (k : A -> M _ B) :
  reads_nothing m -> (forall a, reads_nothing (k a)) -> reads_nothing (bind m k).
Proof.
  intros Hm Hk st b st' Hrun. unfold bind in Hrun.
  destruct (m st) as [[a|e] st1] eqn:E; [|discriminate].
  apply Hm in E. subst st1. exact (Hk a st b st' Hrun).
Qed.

Lemma quiet_bind_raise {A B} (m : M _ A) e :
  reads_nothing (bind m (fun _ => @raise _ B e)).
Proof.
  intros st b st' Hrun. unfold bind, raise in Hrun.
  destruct (m st) as [[a|e'] st1]; discriminate.
Qed.

Lemma quiet_for_each {A} (f : Element -> M _ A) cs :
  Forall (fun c => reads_nothing (f c)) cs -> reads_nothing (for_each f cs).
Proof.
  induction 1 as [|c cs Hc _ IH]; cbn [for_each].
  - apply quiet_ret.
  - apply quiet_bind; [assumption|]. intros s.
    apply quiet_bind; [assumption|]. intros ss. apply quiet_ret.
Qed.

Lemma quiet_find_then {A} sel (f : Element -> M _ A) e cs :
  Forall (fun c => reads_nothing (f c)) cs -> reads_nothing (find_then sel f (raise e) cs).
Proof.
  induction 1 as [|c cs Hc _ IH]; cbn [find_then].
  - apply quiet_raise.
  - destruct (sel (tag c)); assumption.
Qed.

Lemma quiet_join sep items : reads_nothing (PrepareDataset.join sep items).
Proof.
  unfold PrepareDataset.join. destruct (PrepareDataset.all_str items);
    [apply quiet_ret|apply quiet_raise].
Qed.

Ltac quiet_rule _ :=
  match goal with
  | |- reads_nothing (ret _) => apply quiet_ret
  | |- reads_nothing (raise _) => apply quiet_raise
  | |- reads_nothing (PrepareDataset.join _ _) => apply quiet_join
  | |- reads_nothing (for_each _ _) => apply quiet_for_each; apply deep_Forall; assumption
  | |- reads_nothing (find_then _ _ _ _) =>
      apply quiet_find_then; apply deep_Forall; assumption
  | |- reads_nothing (bind _ (fun _ => raise _)) => apply quiet_bind_raise
  | |- reads_nothing (bind _ _) => apply quiet_bind; [|intros ?]
  end.

(** The translation reads the standard input only where it fails. *)
Lemma translate_reads_nothing node : reads_nothing (ptranslate node).
Proof.
  induction node as [[t a tx tl cs] IH] using Element_descendants_ind.
  cbn [children] in IH. cbn [PrepareDataset.translate_formula_node].
  destruct (PrepareDataset.X self); walk quiet_rule.
Qed.

Lemma eof_ret {A} (a : A) : eof_safe (ret a).
Proof. split; [reflexivity|discriminate]. Qed.

Lemma eof_raise {A} e : (forall msg, e <> ValueError msg) -> @eof_safe A (raise e).
Proof. intros He. split; [reflexivity|]. intros msg [= E]. now apply (He msg). Qed.

Lemma eof_bind {A B} (m : M _ A) (k : A -> M _ B) :
  eof_safe m -> (forall a, eof_safe (k a)) -> eof_safe (bind m k).
Proof.
  intros [Hm1 Hm2] Hk. unfold eof_safe, bind in *.
  destruct (m []) as [[a|e] st1]; simpl in *; subst st1.
  - apply Hk.
  - split; [reflexivity|]. intros msg [= ->]. now apply (Hm2 msg).
Qed.

Lemma eof_input {B} (k : string -> M _ B) : eof_safe (bind PrepareDataset.input k).
Proof. split; [reflexivity|discriminate]. Qed.

Lemma eof_for_each {A} (f : Element -> M _ A) cs :
  Forall (fun c => eof_safe (f c)) cs -> eof_safe (for_each f cs).
Proof.
  induction 1 as [|c cs Hc _ IH]; cbn [for_each].
  - apply eof_ret.
  - apply eof_bind; [assumption|]. intros s.
    apply eof_bind; [assumption|]. intros ss. apply eof_ret.
Qed.

Lemma eof_find_then {A} sel (f : Element -> M _ A) cs :
  Forall (fun c => eof_safe (f c)) cs ->
  eof_safe (find_then sel f (raise AttributeError) cs).
Proof.
  induction 1 as [|c cs Hc _ IH]; cbn [find_then].
  - now apply eof_raise.
  - destruct (sel (tag c)); assumption.
Qed.

Lemma eof_join sep items : eof_safe (PrepareDataset.join sep items).
Proof.
  unfold PrepareDataset.join. destruct (PrepareDataset.all_str items);
    [apply eof_ret|now apply eof_raise].
Qed.

Ltac eof_rule _ :=
  match goal with
  | |- eof_safe (ret _) => apply eof_ret
  | |- eof_safe (raise IndexError) => now apply eof_raise
  | |- eof_safe (raise AttributeError) => now apply eof_raise
  | |- eof_safe (PrepareDataset.join _ _) => apply eof_join
  | |- eof_safe (for_each _ _) => apply eof_for_each; apply deep_Forall; assumption
  | |- eof_safe (find_then _ _ _ _) =>
      apply eof_find_then; apply deep_Forall; assumption
  | |- eof_safe (bind PrepareDataset.input _) => apply eof_input
  | |- eof_safe (bind _ _) => apply eof_bind; [|intros ?]
  end.

(** Without input left, the translation raises no [ValueError]: the call of
    [input] before it raises [EOFError]. *)
Lemma translate_eof_safe node : eof_safe (ptranslate node).
Proof.
  induction node as [[t a tx tl cs] IH] using Element_descendants_ind.
  cbn [children] in IH. cbn [PrepareDataset.translate_formula_node].
  destruct (PrepareDataset.X self); walk eof_rule.
Qed.

(** X9. A translation of prepare_dataset.py that returns has read nothing
    from the standard input. *)
Theorem successful_translation_reads_nothing node st v st' :
  PrepareDataset.translate_formula_node self node st = (Returns v, st') -> st' = st.
Proof. apply translate_reads_nothing. Qed.

(** X10. An [is-fireable] node is translated from its first child, which
    is translated twice, once for the [print] and once for the result; the
    outcome is that of one translation of the child: its failure, or its
    result as a string with the standard input untouched. *)
Theorem fireable_translates_its_operand_twice a tx tl (c : Element) rest st :
  ptranslate (Elem (_tag "is-fireable") a tx tl (c :: rest)) st
  = match ptranslate c st with
    | (Returns v, _) => (Returns (Some (PrepareDataset.fmt v)), st)
    | (Raises e, st') => (Raises e, st')
    end.
Proof.
  change (ptranslate (Elem (_tag "is-fireable") a tx tl (c :: rest)))
    with (do printed <- ptranslate c ; do s <- ptranslate c ;
          ret (Some (PrepareDataset.fmt s))).
  unfold bind, ret.
  destruct (ptranslate c st) as [[v|e] st1] eqn:E; [|reflexivity].
  pose proof (translate_reads_nothing c _ _ _ E) as ->.
  now rewrite E.
Qed.

(** X11. A comparison of the tokens of a place with a constant is rendered
    as [(place <= constant)], or with [=] for [integer-eq], in both
    grammars and without reading the standard input; of the places under
    [tokens-count] only the first is rendered. *)
Theorem cardinality_comparison_renders_first_place
    (le : bool) a tx tl a1 x1 l1 a2 l2 a3 l3 (p k : string) places rest st :
  ptranslate
    (Elem (if le then _tag "integer-le" else _tag "integer-eq") a tx tl
       (Elem (_tag "tokens-count") a1 x1 l1
          (Elem (_tag "place") a2 (Some p) l2 [] :: places)
        :: Elem (_tag "integer-constant") a3 (Some k) l3 [] :: rest)) st
  = (Returns (Some ("(" +:+ p +:+ (if le then " <= " else " = ") +:+ k +:+ ")")), st).
Proof. destruct le; reflexivity. Qed.

Lemma prepare_loop_keys n props : forall i acc rs st',
  PrepareDataset.extract_loop self n i props acc [] = (Returns rs, st') ->
  st' = []
  /\ (forall k, k ∈ acc.*1 -> k ∈ rs.*1)
  /\ forall p id_node, p ∈ props ->
       find (String.eqb (_tag "id")) p = Some id_node ->
       is_Some (find (String.eqb (_tag "formula")) p) ->
       text id_node ∈ rs.*1.
Proof.
  induction props as [|p props IH]; intros i acc rs st' Hrun.
  - injection Hrun as <- <-. split; [reflexivity|]. split; [auto|].
    intros p idn Hp. inversion Hp.
  - cbn [PrepareDataset.extract_loop] in Hrun.
    destruct (find (String.eqb (_tag "id")) p) as [idn|] eqn:Hid.
    2:{ destruct (IH _ _ _ _ Hrun) as (H1 & H2 & H3). split; [assumption|].
        split; [assumption|]. intros q idq Hq Hidq Hfq.
        apply elem_of_cons in Hq as [->|Hq]; [congruence|eauto]. }
    destruct (find (String.eqb (_tag "formula")) p) as [f|] eqn:Hf.
    2:{ destruct (IH _ _ _ _ Hrun) as (H1 & H2 & H3). split; [assumption|].
        split; [assumption|]. intros q idq Hq Hidq Hfq.
        apply elem_of_cons in Hq as [->|Hq]; [|eauto].
        rewrite Hf in Hfq. now destruct Hfq. }
    unfold bind at 1 in Hrun. unfold except_ValueError in Hrun.
    destruct (translate_eof_safe f) as [Hst Hnv].
    unfold bind at 1 in Hrun.
    destruct (ptranslate f []) as [[v|e] st1]; simpl in Hst; subst st1.
    + assert (Hdone : forall w,
                PrepareDataset.extract_loop self n (S i) props
                  (dict_set acc (text idn) w) [] = (Returns rs, st') ->
                st' = []
                /\ (forall k, k ∈ acc.*1 -> k ∈ rs.*1)
                /\ forall q idq, q ∈ p :: props ->
                     find (String.eqb (_tag "id")) q = Some idq ->
                     is_Some (find (String.eqb (_tag "formula")) q) ->
                     text idq ∈ rs.*1).
      { intros w Hw. destruct (IH _ _ _ _ Hw) as (H1 & H2 & H3).
        split; [assumption|]. split.
        { intros k Hk. apply H2. apply dict_set_keys. now right. }
        intros q idq Hq Hidq Hfq. apply elem_of_cons in Hq as [->|Hq]; [|eauto].
        rewrite Hid in Hidq. injection Hidq as <-.
        apply H2. apply dict_set_keys. now left. }
      unfold PrepareDataset.plus_end, bind, ret, raise in Hrun.
      destruct (_ <? _)%Z; [destruct v|]; simpl in Hrun;
        first [discriminate Hrun | eapply Hdone; eassumption].
    + destruct e; try discriminate. now destruct (Hnv msg).
Qed.

(** X12. When no input is left on the standard input, an extraction that
    returns has passed over no entry: the id of every property element
    with id and formula is among the results.  (The [ValueError] that
    makes the driver pass over an entry is raised only after a line was
    read.) *)
Theorem no_entry_is_skipped_without_input root rs st' :
  PrepareDataset.extract_properties_from_file self (Some root) [] = (Returns rs, st') ->
  st' = []
  /\ forall p id_node,
       p ∈ findall (_tag "property") root ->
       find (String.eqb (_tag "id")) p = Some id_node ->
       is_Some (find (String.eqb (_tag "formula")) p) ->
       text id_node ∈ rs.*1.
Proof.
  cbn [PrepareDataset.extract_properties_from_file]. intros Hrun.
  destruct (prepare_loop_keys _ _ _ _ _ _ Hrun) as (H1 & _ & H3). auto.
Qed.
End Prepare_more.

Lemma same_ret {A B} (R : A -> B -> Prop) a b : R a b -> same_outcome R (ret a) (ret b).
Proof. intros H st. simpl. auto. Qed.

Lemma same_raise {A B} (R : A -> B -> Prop) e : same_outcome R (raise e) (raise e).
Proof. intros st. simpl. auto. Qed.

Lemma same_bind {A B A' B'} (R : A -> B -> Prop) (R' : A' -> B' -> Prop)
    (m1 : M _ A) (m2 : M _ B) (k1 : A -> M _ A') (k2 : B -> M _ B') :
  same_outcome R m1 m2 ->
  (forall a b, R a b -> same_outcome R' (k1 a) (k2 b)) ->
  same_outcome R' (bind m1 k1) (bind m2 k2).
Proof.
  intros Hm Hk st. unfold bind. specialize (Hm st).
  destruct (m1 st) as [[a|e1] s1], (m2 st) as [[b|e2] s2]; try destruct Hm as [Hm ->];
    try contradiction.
  - apply (Hk a b Hm s2).
  - auto.
Qed.

Lemma same_for_each {A B} (R : A -> B -> Prop) (f g : Element -> M _ _) cs :
  Forall (fun c => same_outcome R (f c) (g c)) cs ->
  same_outcome (Forall2 R) (for_each f cs) (for_each g cs).
Proof.
  induction 1 as [|c cs Hc _ IH]; cbn [for_each].
  - apply same_ret. constructor.
  - eapply same_bind; [exact Hc|]. intros a b Hab.
    eapply same_bind; [exact IH|]. intros l1 l2 Hl. apply same_ret. now constructor.
Qed.

Lemma same_find_then {A B} (R : A -> B -> Prop) sel (f g : Element -> M _ _) e cs :
  Forall (fun c => same_outcome R (f c) (g c)) cs ->
  same_outcome R (find_then sel f (raise e) cs) (find_then sel g (raise e) cs).
Proof.
  induction 1 as [|c cs Hc _ IH]; cbn [find_then].
  - apply same_raise.
  - destruct (sel (tag c)); assumption.
Qed.

Lemma all_str_both l1 l2 :
  Forall2 both_str l1 l2 ->
  is_Some (PrepareDataset.all_str l1) <-> is_Some (PrepareDataset.all_str l2).
Proof.
  induction 1 as [|v1 v2 l1 l2 Hv _ IH]; simpl; [split; eauto|].
  destruct v1 as [s1|], v2 as [s2|].
  - destruct (PrepareDataset.all_str l1), (PrepareDataset.all_str l2); simpl;
      split; intros; eauto; try (apply IH; eauto);
      try (exfalso; eapply is_Some_None; apply IH; eauto).
  - exfalso. eapply is_Some_None. apply Hv. eauto.
  - exfalso. eapply is_Some_None. apply Hv. eauto.
  - split; intros []; discriminate.
Qed.

Lemma same_join sep1 sep2 l1 l2 :
  Forall2 both_str l1 l2 ->
  same_outcome (fun _ _ => True) (PrepareDataset.join sep1 l1) (PrepareDataset.join sep2 l2).
Proof.
  intros H. apply all_str_both in H. unfold PrepareDataset.join.
  destruct (PrepareDataset.all_str l1), (PrepareDataset.all_str l2).
  - now apply same_ret.
  - exfalso. eapply is_Some_None. apply H. eauto.
  - exfalso. eapply is_Some_None. apply H. eauto.
  - apply same_raise.
Qed.

Lemma same_input : same_outcome eq PrepareDataset.input PrepareDataset.input.
Proof. intros [|l st]; simpl; auto. Qed.

Ltac same_rule _ :=
  match goal with
  | |- same_outcome _ (ret _) (ret _) =>
      apply same_ret; first [exact I | unfold both_str; split; intros; eauto]
  | |- same_outcome _ (raise _) (raise _) => apply same_raise
  | |- same_outcome _ (PrepareDataset.translate_formula_node _ _)
                      (PrepareDataset.translate_formula_node _ _) => eassumption
  | |- same_outcome _ (PrepareDataset.join _ _) (PrepareDataset.join _ _) =>
      apply same_join; eassumption
  | |- same_outcome _ (for_each _ _) (for_each _ _) =>
      apply same_for_each; apply deep_Forall; eassumption
  | |- same_outcome _ (find_then _ _ _ _) (find_then _ _ _ _) =>
      apply same_find_then; apply deep_Forall; eassumption
  | |- same_outcome _ (bind PrepareDataset.input _) (bind PrepareDataset.input _) =>
      eapply same_bind; [apply same_input|intros ? ? ?]
  | |- same_outcome _ (bind _ _) (bind _ _) => eapply same_bind; [|intros ? ? ?]
  end.

(** The translations into the two grammars have the same outcome. *)
Lemma dialects_same_outcome node :
  same_outcome both_str
    (PrepareDataset.translate_formula_node (PrepareDataset.init true) node)
    (PrepareDataset.translate_formula_node (PrepareDataset.init false) node).
Proof.
  induction node as [[t a tx tl cs] IH] using Element_descendants_ind.
  cbn [children] in IH.
  cbn [PrepareDataset.translate_formula_node].
  change (PrepareDataset.lola_compatible (PrepareDataset.init true)) with true.
  change (PrepareDataset.lola_compatible (PrepareDataset.init false)) with false.
  change (PrepareDataset.X (PrepareDataset.init true)) with (Some "X").
  cbn [negb].
  walk same_rule.
Qed.

Lemma dict_set_same_keys {K V W} `{EqDecision K}
    (d1 : list (K * V)) (d2 : list (K * W)) k v w :
  same_keys d1 d2 -> same_keys (dict_set d1 k v) (dict_set d2 k w).
Proof.
  unfold same_keys. revert d2.
  induction d1 as [|[k1 v1] d1 IH]; intros [|[k2 v2] d2]; simpl; try discriminate.
  - reflexivity.
  - intros [= -> H]. destruct (decide (k2 = k)); simpl; f_equal; [assumption|].
    now apply IH.
Qed.

Lemma same_except {A B} (R : A -> B -> Prop) (m1 : M _ A) (m2 : M _ B) h1 h2 :
  same_outcome R m1 m2 ->
  (forall msg, same_outcome R (h1 msg) (h2 msg)) ->
  same_outcome R (except_ValueError m1 h1) (except_ValueError m2 h2).
Proof.
  intros Hm Hh st. unfold except_ValueError. specialize (Hm st).
  destruct (m1 st) as [[a|e1] s1], (m2 st) as [[b|e2] s2]; try contradiction;
    [assumption|].
  destruct Hm as [<- <-]. destruct e1; simpl; auto. apply Hh.
Qed.

Lemma same_plus_end v1 v2 :
  both_str v1 v2 ->
  same_outcome both_str
    (PrepareDataset.plus_end (PrepareDataset.init true) v1)
    (PrepareDataset.plus_end (PrepareDataset.init false) v2).
Proof.
  intros Hv. unfold PrepareDataset.plus_end.
  destruct v1 as [s1|], v2 as [s2|].
  - apply same_ret. split; eauto.
  - exfalso. eapply is_Some_None. apply Hv. eauto.
  - exfalso. eapply is_Some_None. apply Hv. eauto.
  - apply same_raise.
Qed.

Lemma prepare_loop_same n props : forall i acc1 acc2,
  same_keys acc1 acc2 ->
  same_outcome same_keys
    (PrepareDataset.extract_loop (PrepareDataset.init true) n i props acc1)
    (PrepareDataset.extract_loop (PrepareDataset.init false) n i props acc2).
Proof.
  induction props as [|p props IH]; intros i acc1 acc2 Hacc.
  - now apply same_ret.
  - cbn [PrepareDataset.extract_loop].
    destruct (find (String.eqb (_tag "id")) p) as [idn|]; [|now apply IH].
    destruct (find (String.eqb (_tag "formula")) p) as [f|]; [|now apply IH].
    eapply same_bind with (R := same_keys); [|intros a b Hab; now apply IH].
    apply same_except; [|intros _; now apply same_ret].
    eapply same_bind; [apply dialects_same_outcome|]. intros v1 v2 Hv.
    eapply same_bind with (R := both_str).
    + destruct (_ <? _)%Z; [now apply same_plus_end|now apply same_ret].
    + intros w1 w2 _. apply same_ret. now apply dict_set_same_keys.
Qed.

(** X13. From the same standard input, the extractions of a file with and
    without [lola_compatible] have the same outcome: both return, with the
    same ids in the same order, or both raise the same exception; and both
    leave the same input. *)
Theorem dialects_extract_the_same_entries parsed :
  same_outcome same_keys
    (PrepareDataset.extract_properties_from_file (PrepareDataset.init true) parsed)
    (PrepareDataset.extract_properties_from_file (PrepareDataset.init false) parsed).
Proof.
  destruct parsed as [root|]; cbn [PrepareDataset.extract_properties_from_file].
  - now apply prepare_loop_same.
  - now apply same_ret.
Qed.

(** * The further properties on example documents *)

(** [two_fireable] is translated again, from the interner it has left. *)
Lemma retranslation_is_stable_witness :
  let r := ExtractMCC.translate_formula_node outline two_fireable ExtractMCC.init in
  r = (Returns "(p0 & p1)", snd r)
  /\ extends (snd r) (snd r)
  /\ ExtractMCC.translate_formula_node outline two_fireable (snd r)
     = (Returns "(p0 & p1)", snd r).
Proof.
  intros r.
  assert (Hr : r = (Returns "(p0 & p1)", snd r))
    by (apply pair_of_fst; vm_compute; reflexivity).
  assert (He : extends (snd r) (snd r)) by reflexivity.
  split; [exact Hr|]. split; [exact He|].
  exact (retranslation_is_stable outline two_fireable ExtractMCC.init
           "(p0 & p1)" (snd r) (snd r) Hr He).
Defined.

(** The translation of [two_fireable] is well parenthesized. *)
Lemma translation_is_well_parenthesized_witness :
  let r := ExtractMCC.translate_formula_node outline two_fireable ExtractMCC.init in
  consistent ExtractMCC.init
  /\ r = (Returns "(p0 & p1)", snd r)
  /\ balanced "(p0 & p1)".
Proof.
  intros r.
  assert (Hr : r = (Returns "(p0 & p1)", snd r))
    by (apply pair_of_fst; vm_compute; reflexivity).
  split; [apply consistent_init|]. split; [exact Hr|].
  exact (translation_is_well_parenthesized outline two_fireable ExtractMCC.init
           "(p0 & p1)" (snd r) consistent_init Hr).
Defined.

(** A quantifier over a conjunction is translated as the conjunction. *)
Lemma quantifier_without_temporal_operator_is_dropped_witness :
  temporal_operator (tag two_fireable) = false
  /\ ExtractMCC.translate_formula_node outline
       (node_of (_tag "all-paths") [two_fireable])
     = ExtractMCC.translate_formula_node outline two_fireable.
Proof.
  split; [reflexivity|].
  apply (quantifier_without_temporal_operator_is_dropped outline true [] None None
           two_fireable []).
  reflexivity.
Defined.

(** A document whose first property element has no id. *)
Lemma malformed_entry_is_skipped_witness :
  let p := property_without_id (is_fireable "t1") in
  let q := property "b" (is_fireable "t2") in
  findall_descendants (_tag "property") one_without_id = [] ++ p :: [q]
  /\ has_id_and_formula p = false
  /\ ExtractMCC.extract_properties_from_file outline (Some one_without_id) ExtractMCC.init
     = ExtractMCC.extract_loop outline ([] ++ [q]) [] ExtractMCC.init
  /\ fst (ExtractMCC.extract_properties_from_file outline (Some one_without_id)
            ExtractMCC.init)
     = Returns [(Some "b", "p0")].
Proof.
  intros p q.
  assert (H1 : findall_descendants (_tag "property") one_without_id = [] ++ p :: [q])
    by (vm_compute; reflexivity).
  assert (H2 : has_id_and_formula p = false) by reflexivity.
  split; [exact H1|]. split; [exact H2|]. split; [|vm_compute; reflexivity].
  exact (malformed_entry_is_skipped outline one_without_id [] p [q] ExtractMCC.init
           H1 H2).
Defined.

(** The extraction of [two_properties] returns. *)
Lemma extraction_returns_on_shaped_formulas_witness :
  forallb formula_has_required_children
    (findall_descendants (_tag "property") two_properties) = true
  /\ exists rs st',
      ExtractMCC.extract_properties_from_file outline (Some two_properties)
        ExtractMCC.init
      = (Returns rs, st').
Proof.
  assert (H : forallb formula_has_required_children
                (findall_descendants (_tag "property") two_properties) = true)
    by (vm_compute; reflexivity).
  split; [exact H|].
  exact (extraction_returns_on_shaped_formulas outline two_properties ExtractMCC.init H).
Defined.

(** The result for [repeated_ids] has two different ids. *)
Lemma extraction_result_is_keyed_by_entry_ids_witness :
  let r := ExtractMCC.extract_properties_from_file outline (Some repeated_ids)
             ExtractMCC.init in
  let rs := [(Some "a", "p2"); (Some "b", "p1")] in
  r = (Returns rs, snd r)
  /\ NoDup rs.*1
  /\ length rs <= length (findall_descendants (_tag "property") repeated_ids)
  /\ forall k, k ∈ rs.*1 ->
       exists p, p ∈ findall_descendants (_tag "property") repeated_ids /\ has_id k p.
Proof.
  intros r rs.
  assert (Hr : r = (Returns rs, snd r)) by (apply pair_of_fst; vm_compute; reflexivity).
  split; [exact Hr|].
  exact (extraction_result_is_keyed_by_entry_ids outline repeated_ids ExtractMCC.init
           rs (snd r) Hr).
Defined.

(** One input file with the two entries of [two_properties], in the
    directory [model]. *)
Lemma main_outputs_accumulate_witness :
  let path_join := fun root file : string => root +:+ "/" +:+ file in
  let parent_name := fun _ : string => "model" in
  let parse := fun _ : string => Some two_properties in
  let run := ExtractMCCMain.mkRun [("old_a", "p7")] ∅ in
  let r := ExtractMCCMain.process_file outline path_join parent_name parse "out"
             "in/model" "properties.xml" run in
  ("properties.xml" =? ".DS_Store") = false
  /\ r = (Returns tt, snd r)
  /\ ExtractMCCMain.written (snd r) !! "out/properties.txt"
     = Some (ExtractMCCMain.lines (ExtractMCCMain.all_properties (snd r)))
  /\ (ExtractMCCMain.all_properties (snd r)).*1 = ["old_a"; "model_a"; "model_b"].
Proof.
  intros path_join parent_name parse run r.
  assert (Hf : ("properties.xml" =? ".DS_Store") = false) by reflexivity.
  assert (Hr : r = (Returns tt, snd r)) by (apply pair_of_fst; vm_compute; reflexivity).
  split; [exact Hf|]. split; [exact Hr|]. split; [|vm_compute; reflexivity].
  exact (proj1 (main_outputs_accumulate outline path_join parent_name parse "out"
                  "in/model" "properties.xml" [] run (snd r) (snd r) Hf Hr eq_refl)).
Defined.

(** The translation of a comparison with a line of input waiting. *)
Lemma successful_translation_reads_nothing_witness :
  PrepareDataset.translate_formula_node (PrepareDataset.init true)
    (at_most "P1" "1") ["waiting"]
  = (Returns (Some "(P1 <= 1)"), ["waiting"])
  /\ ["waiting"] = ["waiting"].
Proof.
  assert (H : PrepareDataset.translate_formula_node (PrepareDataset.init true)
                (at_most "P1" "1") ["waiting"]
              = (Returns (Some "(P1 <= 1)"), ["waiting"])) by reflexivity.
  split; [exact H|].
  exact (successful_translation_reads_nothing (PrepareDataset.init true)
           (at_most "P1" "1") ["waiting"] (Some "(P1 <= 1)") ["waiting"] H).
Defined.

(** The extraction of [two_bounds] without input. *)
Lemma no_entry_is_skipped_without_input_witness :
  let rs := [(Some "a", Some "(P1 <= 1):"); (Some "b", Some "(P2 <= 2)")] in
  PrepareDataset.extract_properties_from_file (PrepareDataset.init true)
    (Some two_bounds) []
  = (Returns rs, [])
  /\ forall p id_node,
       p ∈ findall (_tag "property") two_bounds ->
       find (String.eqb (_tag "id")) p = Some id_node ->
       is_Some (find (String.eqb (_tag "formula")) p) ->
       text id_node ∈ rs.*1.
Proof.
  intros rs.
  assert (H : PrepareDataset.extract_properties_from_file (PrepareDataset.init true)
                (Some two_bounds) []
              = (Returns rs, [])) by (vm_compute; reflexivity).
  split; [exact H|].
  exact (proj2 (no_entry_is_skipped_without_input (PrepareDataset.init true)
                  two_bounds rs [] H)).
Defined.
